(** * Flocking simulation ([flocking.py]): model and verified properties

    The numeric values manipulated by the program are NumPy/Python
    floating-point numbers.  They are modelled by the type [num]: a finite
    value carries a real number and arithmetic on finite values is exact
    (rounding and overflow are not modelled, and the two signed zeros are
    identified, a zero divisor being taken as +0), while the special
    values that NumPy produces instead of raising -- infinities and NaN --
    are kept, with the IEEE rules for them.  Python exceptions are modelled
    by the [result] type.  Where rounding decides a property, the function
    is given a second time on the kernel's binary64 floats (module [F64]). *)

From Stdlib Require Import String.
From Stdlib Require PrimFloat.
From Stdlib Require Import Reals Lra Lia List Bool Arith Sorted.
Import ListNotations.
Local Open Scope R_scope.

(** ** Numbers *)

Inductive num : Type :=
| Fin (r : R)
| Inf (neg : bool)
| NaN.

Definition sign_neg (x : R) : bool := if Rlt_dec x 0 then true else false.

Definition nadd (a b : num) : num :=
  match a, b with
  | NaN, _ | _, NaN => NaN
  | Fin x, Fin y => Fin (x + y)
  | Inf s, Fin _ | Fin _, Inf s => Inf s
  | Inf s, Inf t => if Bool.eqb s t then Inf s else NaN
  end.

Definition nneg (a : num) : num :=
  match a with
  | Fin x => Fin (- x)
  | Inf s => Inf (negb s)
  | NaN => NaN
  end.

Definition nsub (a b : num) : num := nadd a (nneg b).

Definition nmul (a b : num) : num :=
  match a, b with
  | NaN, _ | _, NaN => NaN
  | Fin x, Fin y => Fin (x * y)
  | Inf s, Inf t => Inf (xorb s t)
  | Inf s, Fin y | Fin y, Inf s =>
      if Req_dec_T y 0 then NaN else Inf (xorb s (sign_neg y))
  end.

(** NumPy division does not raise: a zero divisor gives an infinity, or
    NaN for 0/0 (with a warning only). *)
Definition ndiv (a b : num) : num :=
  match a, b with
  | NaN, _ | _, NaN => NaN
  | Fin x, Fin y =>
      if Req_dec_T y 0
      then (if Req_dec_T x 0 then NaN else Inf (sign_neg x))
      else Fin (x / y)
  | Fin _, Inf _ => Fin 0
  | Inf s, Fin y => Inf (xorb s (sign_neg y))
  | Inf _, Inf _ => NaN
  end.

Definition nsqrt (a : num) : num :=
  match a with
  | Fin x => if Rlt_dec x 0 then NaN else Fin (sqrt x)
  | Inf false => Inf false
  | Inf true => NaN
  | NaN => NaN
  end.

Definition ncos (a : num) : num :=
  match a with Fin x => Fin (cos x) | _ => NaN end.

Definition nsin (a : num) : num :=
  match a with Fin x => Fin (sin x) | _ => NaN end.

Definition ntanh (a : num) : num :=
  match a with
  | Fin x => Fin (tanh x)
  | Inf s => Fin (if s then -1 else 1)
  | NaN => NaN
  end.

(** [a % b] on floats: the result takes the sign of the divisor.  On
    finite values this is the exact remainder; the rounding of the float
    operation, which for a tiny negative [a] and positive [b] returns [b]
    itself, is not modelled. *)
Definition nmod (a b : num) : num :=
  match a, b with
  | NaN, _ | _, NaN => NaN
  | Inf _, _ => NaN
  | Fin x, Fin y =>
      if Req_dec_T y 0 then NaN else Fin (x - y * IZR (Int_part (x / y)))
  | Fin x, Inf s =>
      if Req_dec_T x 0 then Fin 0
      else if Bool.eqb (sign_neg x) s then Fin x else Inf s
  end.

(** [a < b]: every comparison with NaN is false. *)
Definition nlt (a b : num) : bool :=
  match a, b with
  | Fin x, Fin y => if Rlt_dec x y then true else false
  | Inf true, Fin _ | Fin _, Inf false | Inf true, Inf false => true
  | _, _ => false
  end.

(** [a != b]: NaN differs from everything, itself included. *)
Definition nne (a b : num) : bool :=
  match a, b with
  | Fin x, Fin y => if Req_dec_T x y then false else true
  | Inf s, Inf t => negb (Bool.eqb s t)
  | _, _ => true
  end.

(** [np.sum] and [np.mean] of a one-dimensional array. *)
Definition nsum (l : list num) : num := fold_left nadd l (Fin 0).

Definition nmean (l : list num) : num := ndiv (nsum l) (Fin (INR (length l))).

(** Two-component vectors ([np.array([a, b])]) and their operations. *)
Definition vec : Type := (num * num)%type.

Definition vadd (u v : vec) : vec := (nadd (fst u) (fst v), nadd (snd u) (snd v)).
Definition vsub (u v : vec) : vec := (nsub (fst u) (fst v), nsub (snd u) (snd v)).
Definition vscale (u : vec) (k : num) : vec := (nmul (fst u) k, nmul (snd u) k).
Definition vdiv (u : vec) (k : num) : vec := (ndiv (fst u) k, ndiv (snd u) k).

(** [np.linalg.norm] *)
Definition norm (u : vec) : num :=
  nsqrt (nadd (nmul (fst u) (fst u)) (nmul (snd u) (snd u))).

(** ** Exceptions *)

Inductive exn : Type :=
| AssertionError (msg : string)
| IndexError.

Inductive result (A : Type) : Type :=
| Ok (a : A)
| Raise (e : exn).

Arguments Ok {A} a.
Arguments Raise {A} e.

Definition bind {A B : Type} (m : result A) (k : A -> result B) : result B :=
  match m with
  | Ok a => k a
  | Raise e => Raise e
  end.

Notation "x <- m ;; k" := (bind m (fun x => k))
  (at level 61, m at next level, right associativity).
Notation "' p <- m ;; k" := (bind m (fun x => let p := x in k))
  (at level 61, p pattern, m at next level, right associativity).

(** [l[i]] for a non-negative index. *)
Definition getitem {A : Type} (l : list A) (i : nat) : result A :=
  match nth_error l i with
  | Some a => Ok a
  | None => Raise IndexError
  end.

(** [for i in l: s = body(i, s)], stopping at the first exception. *)
Fixpoint for_each {S : Type} (body : nat -> S -> result S) (l : list nat) (s : S)
  : result S :=
  match l with
  | [] => Ok s
  | i :: l' => s' <- body i s ;; for_each body l' s'
  end.

Definition enumerate {A : Type} (l : list A) : list (nat * A) :=
  combine (seq 0 (length l)) l.

Definition zip3 {A B C : Type} (xs : list A) (ys : list B) (os : list C)
  : list (A * B * C) :=
  combine (combine xs ys) os.

(** ** [find_neighbors] *)

Definition lists3 : Type := (list num * list num * list num)%type.

(** The distance test of the loop body. *)
Definition within (x0 y0 distance x y : num) : bool :=
  nlt (nsqrt (nadd (nmul (nsub x x0) (nsub x x0))
                   (nmul (nsub y y0) (nsub y y0)))) distance.

(** One iteration of the loop over [enumerate(zip(xs, ys, os))]. *)
Definition find_neighbors_body (idx : nat) (x0 y0 distance : num)
    (acc : lists3) (e : nat * (num * num * num)) : lists3 :=
  let '(adjacent_xs, adjacent_ys, adjacent_os) := acc in
  let '(i, (x, y, o)) := e in
  if Nat.eqb i idx then acc
  else if within x0 y0 distance x y
       then (adjacent_xs ++ [x], adjacent_ys ++ [y], adjacent_os ++ [o])
       else acc.

Definition find_neighbors (idx : nat) (xs ys os : list num) (distance : num)
  : result lists3 :=
  x0 <- getitem xs idx ;;
  y0 <- getitem ys idx ;;
  Ok (fold_left (find_neighbors_body idx x0 y0 distance)
                (enumerate (zip3 xs ys os)) ([], [], [])).

(** ** [get_triangle_points] *)

Definition get_triangle_points (x y o nose_length wing_length wing_angle : num)
  : vec * vec * vec :=
  let beak_x := nadd (nmul (ncos o) nose_length) x in
  let beak_y := nadd (nmul (nsin o) nose_length) y in
  let left_wing_x := nadd (nmul (ncos (nsub o wing_angle)) wing_length) x in
  let left_wing_y := nadd (nmul (nsin (nsub o wing_angle)) wing_length) y in
  let right_wing_x := nadd (nmul (ncos (nadd o wing_angle)) wing_length) x in
  let right_wing_y := nadd (nmul (nsin (nadd o wing_angle)) wing_length) y in
  let centroid_offset :=
    (nsub (ndiv (nadd (nadd beak_x left_wing_x) right_wing_x) (Fin 3)) x,
     nsub (ndiv (nadd (nadd beak_y left_wing_y) right_wing_y) (Fin 3)) y) in
  let beak := vsub (beak_x, beak_y) centroid_offset in
  let left_wing := vsub (left_wing_x, left_wing_y) centroid_offset in
  let right_wing := vsub (right_wing_x, right_wing_y) centroid_offset in
  (beak, left_wing, right_wing).

(** ** [update_locations] *)

Definition weights_message : string :=
  "weights must contain three numbers, weighting the importance of alignment, cohesion, and separation, respectively".

(** The branch taken when the agent has neighbours: the three forces are
    computed and those of non-zero magnitude are added to [vector]. *)
Definition add_forces (xi yi w0 w1 w2 : num) (vector : vec)
    (nxs nys nos : list num) : vec :=
  let mx := nmean nxs in
  let my := nmean nys in
  let alignment := (nmean (map ncos nos), nmean (map nsin nos)) in
  let alignment_mag := norm alignment in
  let cohesion := (nsub mx xi, nsub my yi) in
  let cohesion_mag := norm cohesion in
  let separation :=
    (nmul (Fin (-1)) (nsum (map (fun nx => nsub nx xi) nxs)),
     nmul (Fin (-1)) (nsum (map (fun nx => nsub nx xi) nxs))) in
  let separation_mag := norm separation in
  let vector :=
    if nne alignment_mag (Fin 0)
    then vadd vector (vscale (vdiv alignment alignment_mag) w0) else vector in
  let vector :=
    if nne cohesion_mag (Fin 0)
    then vadd vector (vscale (vdiv cohesion cohesion_mag) w1) else vector in
  let vector :=
    if nne separation_mag (Fin 0)
    then vadd vector (vscale (vdiv separation separation_mag) w2) else vector in
  vector.

(** The direction vector of agent [i] before its final normalization. *)
Definition agent_vector (xs ys os : list num) (interaction_radius w0 w1 w2 : num)
    (i : nat) : result vec :=
  oi <- getitem os i ;;
  let vector := (ncos oi, nsin oi) in
  ' (nxs, nys, nos) <- find_neighbors i xs ys os interaction_radius ;;
  if negb (Nat.eqb (length nxs) 0) then
    xi <- getitem xs i ;;
    yi <- getitem ys i ;;
    Ok (add_forces xi yi w0 w1 w2 vector nxs nys nos)
  else Ok vector.

(** [vector/np.linalg.norm(vector) * speed] *)
Definition displacement (vector : vec) (speed : num) : vec :=
  vscale (vdiv vector (norm vector)) speed.

(** [np.tanh(vector[1]/vector[0]) if vector[1] != 0 else 0] *)
Definition new_angle (vector : vec) : num :=
  if nne (snd vector) (Fin 0) then ntanh (ndiv (snd vector) (fst vector))
  else Fin 0.

(** The displacement of agent [i]. *)
Definition agent_displacement (xs ys os : list num)
    (speed interaction_radius w0 w1 w2 : num) (i : nat) : result vec :=
  vector <- agent_vector xs ys os interaction_radius w0 w1 w2 i ;;
  Ok (displacement vector speed).

(** New x, new y and new orientation of agent [i]. *)
Definition agent_update (xs ys os : list num) (canvas_size : num * num)
    (speed interaction_radius w0 w1 w2 : num) (i : nat)
  : result (num * num * num) :=
  vector <- agent_displacement xs ys os speed interaction_radius w0 w1 w2 i ;;
  let angle := new_angle vector in
  xi <- getitem xs i ;;
  yi <- getitem ys i ;;
  Ok (nmod (nadd (fst vector) xi) (fst canvas_size),
      nmod (nadd (snd vector) yi) (snd canvas_size),
      angle).

Definition update_body (xs ys os : list num) (canvas_size : num * num)
    (speed interaction_radius w0 w1 w2 : num) (i : nat) (acc : lists3)
  : result lists3 :=
  let '(new_xs, new_ys, new_os) := acc in
  ' (x, y, angle) <-
    agent_update xs ys os canvas_size speed interaction_radius w0 w1 w2 i ;;
  Ok (new_xs ++ [x], new_ys ++ [y], new_os ++ [angle]).

(** The assertion on [len(weights)] and the later reads of [weights[0]],
    [weights[1]], [weights[2]] are rendered by one pattern match. *)
Definition update_locations (xs ys os : list num) (canvas_size : num * num)
    (speed interaction_radius : num) (weights : list num) : result lists3 :=
  match weights with
  | [w0; w1; w2] =>
      for_each
        (update_body xs ys os canvas_size speed interaction_radius w0 w1 w2)
        (seq 0 (length xs)) ([], [], [])
  | _ => Raise (AssertionError weights_message)
  end.

(** ** Specification-side notions *)

(** Plane Euclidean distance between agents [i] and [j] of a population
    with real coordinates. *)
Definition euclid (rxs rys : list R) (i j : nat) : R :=
  sqrt ((nth j rxs 0 - nth i rxs 0) ^ 2 + (nth j rys 0 - nth i rys 0) ^ 2).

Definition is_neighbor (rxs rys : list R) (idx : nat) (radius : R) (j : nat)
  : bool :=
  negb (Nat.eqb j idx) && (if Rlt_dec (euclid rxs rys idx j) radius then true else false).

(** The neighbours of [idx], by ascending index. *)
Definition neighbor_indices (rxs rys : list R) (idx : nat) (radius : R)
  : list nat :=
  filter (is_neighbor rxs rys idx radius) (seq 0 (length rxs)).

Definition Rsum (l : list R) : R := fold_right Rplus 0 l.

(** The separation component named by the specification: the negated sum,
    over the neighbours [js] of agent [i], of [xs[j] - xs[i]]. *)
Definition separation_component (rxs : list R) (i : nat) (js : list nat) : R :=
  - Rsum (map (fun j => nth j rxs 0 - nth i rxs 0) js).

(** Adding a force to a direction vector: normalized and weighted when its
    magnitude is non-zero, nothing otherwise. *)
Definition with_force (v force : vec) (w : num) : vec :=
  if nne (norm force) (Fin 0)
  then vadd v (vscale (vdiv force (norm force)) w) else v.

Definition in_range (a : num) (lo hi : R) (strict_hi : bool) : Prop :=
  exists r, a = Fin r /\ lo <= r /\ (if strict_hi then r < hi else r <= hi).

(** Centroid of three points. *)
Definition centroid (t : vec * vec * vec) : vec :=
  let '(p, q, r) := t in
  (ndiv (nadd (nadd (fst p) (fst q)) (fst r)) (Fin 3),
   ndiv (nadd (nadd (snd p) (snd q)) (snd r)) (Fin 3)).

(** Indices kept by the loop of [find_neighbors] over the zipped list. *)
Definition selected (idx : nat) (x0 y0 distance : num)
    (zs : list (num * num * num)) : list nat :=
  filter (fun j => negb (Nat.eqb j idx)
                   && within x0 y0 distance
                        (fst (fst (nth j zs (NaN, NaN, NaN))))
                        (snd (fst (nth j zs (NaN, NaN, NaN)))))
         (seq 0 (length zs)).

(** Indices whose agent passes the distance test against agent [idx]. *)
Definition near_indices (idx : nat) (xs ys : list num) (distance : num)
  : list nat :=
  filter (fun j => negb (Nat.eqb j idx)
                   && within (nth idx xs NaN) (nth idx ys NaN) distance
                        (nth j xs NaN) (nth j ys NaN))
         (seq 0 (length xs)).

(** The value of a computation that does not raise. *)
Definition value_or {A : Type} (d : A) (m : result A) : A :=
  match m with
  | Ok a => a
  | Raise _ => d
  end.

(** Agent [i]'s new state, as a total function, for stating what each
    output slot of [update_locations] holds. *)
Definition agent_next (xs ys os : list num) (canvas_size : num * num)
    (speed interaction_radius w0 w1 w2 : num) (i : nat) : num * num * num :=
  value_or (NaN, NaN, NaN)
    (agent_update xs ys os canvas_size speed interaction_radius w0 w1 w2 i).

(** Mean direction of the neighbours [js]. *)
Definition alignment_force (os : list num) (js : list nat) : vec :=
  (nmean (map (fun j => ncos (nth j os NaN)) js),
   nmean (map (fun j => nsin (nth j os NaN)) js)).

(** Vector from agent [i] to the mean position of its neighbours [js]. *)
Definition cohesion_force (rxs rys : list R) (i : nat) (js : list nat) : vec :=
  (Fin (Rsum (map (fun j => nth j rxs 0) js) / INR (length js) - nth i rxs 0),
   Fin (Rsum (map (fun j => nth j rys 0) js) / INR (length js) - nth i rys 0)).

(** The separation force named by the specification: the same component
    in both dimensions. *)
Definition separation_force (rxs : list R) (i : nat) (js : list nat) : vec :=
  (Fin (separation_component rxs i js), Fin (separation_component rxs i js)).

(** A radius below which no distance can be: NaN, minus infinity, or a
    finite value that is not positive. *)
Definition no_reach (d : num) : Prop :=
  d = NaN \/ d = Inf true \/ exists r, d = Fin r /\ r <= 0.

(** ** The driver loop ([pygame-demo.py])

    Window, clock, event polling and drawing are input/output and are not
    modelled; what the loop does to the simulation state is the assignment
    [xs, ys, os = update_locations(xs, ys, os, size, ...)] with the
    hyperparameters fixed at the top of the script. *)
Module Demo.

Definition size : num * num := (Fin 800, Fin 600).
Definition speed : num := Fin 5.
Definition interaction_radius : num := Fin 100.
Definition weights : list num := [Fin 1; Fin (1 / 10); Fin (1 / 10)].

(** The state update of one iteration of the [while not done] loop. *)
Definition frame (s : lists3) : result lists3 :=
  let '(xs, ys, os) := s in
  update_locations xs ys os size speed interaction_radius weights.

(** [n] iterations of the loop. *)
Fixpoint frames (n : nat) (s : lists3) : result lists3 :=
  match n with
  | O => Ok s
  | S n' => s' <- frame s ;; frames n' s'
  end.

(** [get_triangle_points(x, y, o)] with the default shape arguments, as
    called by the drawing code. *)
Definition triangle (x y o : num) : vec * vec * vec :=
  get_triangle_points x y o (Fin 30) (Fin 10) (Fin (1175 / 1000)).

End Demo.

(** ** Specification-side geometry of the triangle (exact reals) *)

Definition point : Type := (R * R)%type.

Definition fin2 (p : point) : vec := (Fin (fst p), Fin (snd p)).

(** The raw beak and wing points: at distance [n] (beak) or [w] (wings)
    from [(x, y)], in the directions [o], [o - a] and [o + a]. *)
Definition raw_beak (x y o n : R) : point := (x + n * cos o, y + n * sin o).
Definition raw_left (x y o w a : R) : point :=
  (x + w * cos (o - a), y + w * sin (o - a)).
Definition raw_right (x y o w a : R) : point :=
  (x + w * cos (o + a), y + w * sin (o + a)).

(** Offset between the average of the raw points and [(x, y)]. *)
Definition raw_offset (x y o n w a : R) : point :=
  ((fst (raw_beak x y o n) + fst (raw_left x y o w a)
    + fst (raw_right x y o w a)) / 3 - x,
   (snd (raw_beak x y o n) + snd (raw_left x y o w a)
    + snd (raw_right x y o w a)) / 3 - y).

Definition recentre (p off : point) : point :=
  (fst p - fst off, snd p - snd off).

(** Rotation of [p] by the angle [theta] about the point [c]. *)
Definition rotate_about (c : point) (theta : R) (p : point) : point :=
  (fst c + (fst p - fst c) * cos theta - (snd p - snd c) * sin theta,
   snd c + (fst p - fst c) * sin theta + (snd p - snd c) * cos theta).

(** ** [get_triangle_points] on binary64 floats

    The same function on the hardware floats of the kernel, with their
    rounding.  The cosine and sine of the platform's libm are parameters. *)
Module F64.

Import PrimFloat.
Local Open Scope float_scope.

Definition fvec : Type := (float * float)%type.

Definition fsub2 (u v : fvec) : fvec := (fst u - fst v, snd u - snd v).

Definition get_triangle_points (fcos fsin : float -> float)
    (x y o nose_length wing_length wing_angle : float) : fvec * fvec * fvec :=
  let beak_x := fcos o * nose_length + x in
  let beak_y := fsin o * nose_length + y in
  let left_wing_x := fcos (o - wing_angle) * wing_length + x in
  let left_wing_y := fsin (o - wing_angle) * wing_length + y in
  let right_wing_x := fcos (o + wing_angle) * wing_length + x in
  let right_wing_y := fsin (o + wing_angle) * wing_length + y in
  let centroid_offset :=
    ((beak_x + left_wing_x + right_wing_x) / 3 - x,
     (beak_y + left_wing_y + right_wing_y) / 3 - y) in
  let beak := fsub2 (beak_x, beak_y) centroid_offset in
  let left_wing := fsub2 (left_wing_x, left_wing_y) centroid_offset in
  let right_wing := fsub2 (right_wing_x, right_wing_y) centroid_offset in
  (beak, left_wing, right_wing).

(** Arithmetic mean of three points. *)
Definition centroid (t : fvec * fvec * fvec) : fvec :=
  let '(p, q, r) := t in
  ((fst p + fst q + fst r) / 3, (snd p + snd q + snd r) / 3).

(** The only libm values used below: [cos 0.0 = 1.0] and [sin 0.0 = 0.0],
    which every libm returns; other arguments are not tabulated. *)
Definition cos_at_zero (a : float) : float := if a =? 0 then 1 else nan.
Definition sin_at_zero (a : float) : float := if a =? 0 then 0 else nan.

(** The call [get_triangle_points(7, 3, 0.0, 30, 10, 0.0)]. *)
Definition sample_center : fvec := (7, 3).
Definition sample_nose : float := 30.
Definition sample_wing : float := 10.

Definition sample : fvec * fvec * fvec :=
  get_triangle_points cos_at_zero sin_at_zero
    (fst sample_center) (snd sample_center) 0 sample_nose sample_wing 0.

End F64.

(** * Properties *)

(** ** Lists and exceptions *)

Lemma getitem_nth {A : Type} (l : list A) (i : nat) (d : A) :
  (i < length l)%nat -> getitem l i = Ok (nth i l d).
Proof.
  intros Hi. unfold getitem.
  rewrite (nth_error_nth' l d Hi). reflexivity.
Qed.

Lemma getitem_out {A : Type} (l : list A) (i : nat) :
  (length l <= i)%nat -> getitem l i = Raise IndexError.
Proof.
  intros Hi. unfold getitem.
  apply nth_error_None in Hi. rewrite Hi. reflexivity.
Qed.

Lemma combine_snoc {A B : Type} (l : list A) (l' : list B) (a : A) (b : B) :
  length l = length l' ->
  combine (l ++ [a]) (l' ++ [b]) = combine l l' ++ [(a, b)].
Proof.
  revert l'. induction l as [|x l IH]; intros [|y l'] Hlen; simpl in *;
    try discriminate; [reflexivity|].
  f_equal. apply IH. lia.
Qed.

Lemma enumerate_snoc {A : Type} (l : list A) (a : A) :
  enumerate (l ++ [a]) = enumerate l ++ [(length l, a)].
Proof.
  unfold enumerate. rewrite length_app. simpl.
  rewrite Nat.add_1_r, seq_S. simpl.
  apply combine_snoc. now rewrite length_seq.
Qed.

Lemma zip3_nth (xs ys os : list num) (j : nat) :
  length ys = length xs -> length os = length xs ->
  nth j (zip3 xs ys os) (NaN, NaN, NaN) = (nth j xs NaN, nth j ys NaN, nth j os NaN).
Proof.
  intros Hy Ho. unfold zip3.
  rewrite combine_nth.
  - rewrite combine_nth by congruence. reflexivity.
  - rewrite length_combine. lia.
Qed.

Lemma zip3_length (xs ys os : list num) :
  length ys = length xs -> length os = length xs ->
  length (zip3 xs ys os) = length xs.
Proof.
  intros Hy Ho. unfold zip3. rewrite !length_combine. lia.
Qed.

(** ** The loop of [find_neighbors] *)

Lemma selected_snoc (idx : nat) (x0 y0 distance : num)
    (zs : list (num * num * num)) (z : num * num * num) :
  selected idx x0 y0 distance (zs ++ [z]) =
  selected idx x0 y0 distance zs ++
  (if negb (Nat.eqb (length zs) idx)
      && within x0 y0 distance (fst (fst z)) (snd (fst z))
   then [length zs] else []).
Proof.
  unfold selected. rewrite length_app. simpl.
  rewrite Nat.add_1_r, seq_S, filter_app. simpl. f_equal.
  - apply filter_ext_in. intros j Hj. apply in_seq in Hj.
    rewrite app_nth1 by lia. reflexivity.
  - rewrite nth_middle. reflexivity.
Qed.

Lemma find_neighbors_loop (idx : nat) (x0 y0 distance : num)
    (zs : list (num * num * num)) :
  fold_left (find_neighbors_body idx x0 y0 distance) (enumerate zs) ([], [], []) =
  (map (fun j => fst (fst (nth j zs (NaN, NaN, NaN)))) (selected idx x0 y0 distance zs),
   map (fun j => snd (fst (nth j zs (NaN, NaN, NaN)))) (selected idx x0 y0 distance zs),
   map (fun j => snd (nth j zs (NaN, NaN, NaN))) (selected idx x0 y0 distance zs)).
Proof.
  induction zs as [|z zs IH] using rev_ind; [reflexivity|].
  rewrite enumerate_snoc, fold_left_app, IH. simpl.
  rewrite selected_snoc.
  assert (Hold : forall (B : Type) (f : num * num * num -> B),
             map (fun j => f (nth j (zs ++ [z]) (NaN, NaN, NaN)))
                 (selected idx x0 y0 distance zs) =
             map (fun j => f (nth j zs (NaN, NaN, NaN)))
                 (selected idx x0 y0 distance zs)).
  { intros B f. apply map_ext_in. intros j Hj.
    unfold selected in Hj. apply filter_In in Hj. destruct Hj as [Hj _].
    apply in_seq in Hj. rewrite app_nth1 by lia. reflexivity. }
  rewrite !map_app.
  rewrite (Hold _ (fun t => fst (fst t))), (Hold _ (fun t => snd (fst t))),
    (Hold _ (fun t => snd t)).
  destruct z as [[x y] o]. simpl.
  destruct (Nat.eqb (length zs) idx); simpl.
  - rewrite !app_nil_r. reflexivity.
  - destruct (within x0 y0 distance x y); simpl.
    + rewrite nth_middle. reflexivity.
    + rewrite !app_nil_r. reflexivity.
Qed.

Lemma find_neighbors_near (idx : nat) (xs ys os : list num) (distance : num) :
  length ys = length xs -> length os = length xs -> (idx < length xs)%nat ->
  find_neighbors idx xs ys os distance =
  Ok (map (fun j => nth j xs NaN) (near_indices idx xs ys distance),
      map (fun j => nth j ys NaN) (near_indices idx xs ys distance),
      map (fun j => nth j os NaN) (near_indices idx xs ys distance)).
Proof.
  intros Hy Ho Hidx. unfold find_neighbors.
  rewrite (getitem_nth xs idx NaN) by assumption.
  rewrite (getitem_nth ys idx NaN) by lia. simpl.
  rewrite find_neighbors_loop.
  assert (Hsel : selected idx (nth idx xs NaN) (nth idx ys NaN) distance
                   (zip3 xs ys os) = near_indices idx xs ys distance).
  { unfold selected, near_indices. rewrite zip3_length by assumption.
    apply filter_ext. intros j. rewrite zip3_nth by assumption. reflexivity. }
  rewrite Hsel. f_equal. f_equal; [f_equal|];
    apply map_ext; intros j; rewrite zip3_nth by assumption; reflexivity.
Qed.

Lemma nth_map_Fin (l : list R) (j : nat) :
  (j < length l)%nat -> nth j (map Fin l) NaN = Fin (nth j l 0).
Proof.
  intros Hj. rewrite (nth_indep _ NaN (Fin 0)) by now rewrite length_map.
  apply map_nth.
Qed.

Lemma nsqrt_nonneg (s : R) : 0 <= s -> nsqrt (Fin s) = Fin (sqrt s).
Proof.
  intros Hs. simpl. destruct (Rlt_dec s 0); [lra | reflexivity].
Qed.

Lemma within_Fin (x0 y0 r x y : R) :
  within (Fin x0) (Fin y0) (Fin r) (Fin x) (Fin y) =
  if Rlt_dec (sqrt ((x - x0) ^ 2 + (y - y0) ^ 2)) r then true else false.
Proof.
  unfold within, nsub. cbn [nneg nadd nmul].
  rewrite nsqrt_nonneg
    by (pose proof (Rle_0_sqr (x + - x0)); pose proof (Rle_0_sqr (y + - y0));
        unfold Rsqr in *; lra).
  replace ((x + - x0) * (x + - x0) + (y + - y0) * (y + - y0))
    with ((x - x0) ^ 2 + (y - y0) ^ 2) by ring.
  reflexivity.
Qed.

Lemma near_indices_Fin (rxs rys : list R) (idx : nat) (r : R) :
  length rys = length rxs -> (idx < length rxs)%nat ->
  near_indices idx (map Fin rxs) (map Fin rys) (Fin r) =
  neighbor_indices rxs rys idx r.
Proof.
  intros Hy Hidx. unfold near_indices, neighbor_indices.
  rewrite length_map. apply filter_ext_in. intros j Hj. apply in_seq in Hj.
  rewrite !nth_map_Fin by lia. rewrite within_Fin. reflexivity.
Qed.



(** ** The loop of [update_locations] *)

Lemma nth_map_seq {A : Type} (f : nat -> A) (n i : nat) (d : A) :
  (i < n)%nat -> nth i (map f (seq 0 n)) d = f i.
Proof.
  intros Hi.
  rewrite (nth_indep _ d (f 0%nat)) by now rewrite length_map, length_seq.
  rewrite map_nth, seq_nth by assumption. reflexivity.
Qed.

Section Step.

Variables xs ys os : list num.
Variable canvas_size : num * num.
Variables speed interaction_radius w0 w1 w2 : num.
Hypothesis len_ys : length ys = length xs.
Hypothesis len_os : length os = length xs.

Local Abbreviation next :=
  (agent_next xs ys os canvas_size speed interaction_radius w0 w1 w2).

Lemma agent_vector_ok (i : nat) :
  (i < length xs)%nat ->
  exists v, agent_vector xs ys os interaction_radius w0 w1 w2 i = Ok v.
Proof.
  intros Hi. unfold agent_vector.
  rewrite (getitem_nth os i NaN) by lia. simpl.
  rewrite find_neighbors_near by assumption. simpl.
  destruct (negb _).
  - rewrite (getitem_nth xs i NaN) by lia.
    rewrite (getitem_nth ys i NaN) by lia. simpl. eauto.
  - eauto.
Qed.

Lemma agent_update_ok (i : nat) :
  (i < length xs)%nat ->
  agent_update xs ys os canvas_size speed interaction_radius w0 w1 w2 i =
  Ok (next i).
Proof.
  intros Hi. unfold agent_next, agent_update, agent_displacement.
  destruct (agent_vector_ok i Hi) as [v Hv]. rewrite Hv. simpl.
  rewrite (getitem_nth xs i NaN) by lia.
  rewrite (getitem_nth ys i NaN) by lia. reflexivity.
Qed.

Lemma update_loop (l : list nat) (acc : lists3) :
  (forall i, In i l -> (i < length xs)%nat) ->
  for_each (update_body xs ys os canvas_size speed interaction_radius w0 w1 w2)
           l acc =
  Ok (fst (fst acc) ++ map (fun i => fst (fst (next i))) l,
      snd (fst acc) ++ map (fun i => snd (fst (next i))) l,
      snd acc ++ map (fun i => snd (next i)) l).
Proof.
  revert acc. induction l as [|i l IH]; intros [[ax ay] ao] Hl; simpl.
  - rewrite !app_nil_r. reflexivity.
  - rewrite (agent_update_ok i (Hl i (or_introl eq_refl))).
    destruct (next i) as [[x y] a] eqn:Hn. simpl.
    rewrite IH by (intros j Hj; apply Hl; now right). simpl.
    rewrite <- !app_assoc. reflexivity.
Qed.

Lemma update_locations_eq :
  update_locations xs ys os canvas_size speed interaction_radius [w0; w1; w2] =
  Ok (map (fun i => fst (fst (next i))) (seq 0 (length xs)),
      map (fun i => snd (fst (next i))) (seq 0 (length xs)),
      map (fun i => snd (next i)) (seq 0 (length xs))).
Proof.
  unfold update_locations. rewrite update_loop.
  - reflexivity.
  - intros i Hi. apply in_seq in Hi. lia.
Qed.

End Step.

(** C8: on equal-length input sequences and three weights,
    [update_locations] returns three sequences of the input length, and
    output slot [i] holds the new state computed for input agent [i]:
    no agent is dropped, added or moved to another index. *)
Theorem update_locations_index_alignment (xs ys os : list num)
    (canvas_size : num * num) (speed interaction_radius : num)
    (weights : list num) :
  length ys = length xs -> length os = length xs -> length weights = 3%nat ->
  exists new_xs new_ys new_os,
    update_locations xs ys os canvas_size speed interaction_radius weights =
      Ok (new_xs, new_ys, new_os)
    /\ length new_xs = length xs
    /\ length new_ys = length xs
    /\ length new_os = length xs
    /\ forall i, (i < length xs)%nat ->
         agent_update xs ys os canvas_size speed interaction_radius
           (nth 0 weights NaN) (nth 1 weights NaN) (nth 2 weights NaN) i =
         Ok (nth i new_xs NaN, nth i new_ys NaN, nth i new_os NaN).
Proof.
  intros Hy Ho Hw.
  destruct weights as [|w0 [|w1 [|w2 [|w3 ws]]]]; try discriminate Hw.
  cbn [nth].
  eexists _, _, _. split; [apply update_locations_eq; assumption|].
  rewrite !length_map, !length_seq. repeat split.
  intros i Hi. rewrite !nth_map_seq by assumption.
  rewrite agent_update_ok by assumption.
  destruct (agent_next _ _ _ _ _ _ _ _ _ i) as [[x y] a]. reflexivity.
Qed.

(** C5: a call whose [weights] does not have exactly three components
    fails with the assertion error before any agent is processed; no
    output is produced. *)
Theorem update_locations_bad_weights (xs ys os : list num)
    (canvas_size : num * num) (speed interaction_radius : num)
    (weights : list num) :
  length weights <> 3%nat ->
  update_locations xs ys os canvas_size speed interaction_radius weights =
  Raise (AssertionError weights_message).
Proof.
  intros Hw.
  destruct weights as [|w0 [|w1 [|w2 [|w3 ws]]]]; try reflexivity.
  now elim Hw.
Qed.

(** C6: an agent whose displacement has a y-component exactly zero gets
    the new heading 0, whatever the x-component. *)
Theorem zero_y_displacement_heading (xs ys os : list num)
    (canvas_size : num * num) (speed interaction_radius : num)
    (weights : list num) (i : nat) (dx : num) :
  length ys = length xs -> length os = length xs -> length weights = 3%nat ->
  (i < length xs)%nat ->
  agent_displacement xs ys os speed interaction_radius
    (nth 0 weights NaN) (nth 1 weights NaN) (nth 2 weights NaN) i =
    Ok (dx, Fin 0) ->
  exists new_xs new_ys new_os,
    update_locations xs ys os canvas_size speed interaction_radius weights =
      Ok (new_xs, new_ys, new_os)
    /\ nth i new_os NaN = Fin 0.
Proof.
  intros Hy Ho Hw Hi Hd.
  destruct weights as [|w0 [|w1 [|w2 [|w3 ws]]]]; try discriminate Hw.
  cbn [nth] in Hd.
  eexists _, _, _. split; [apply update_locations_eq; assumption|].
  rewrite nth_map_seq by assumption.
  unfold agent_next, agent_update. rewrite Hd. simpl.
  rewrite (getitem_nth xs i NaN) by lia.
  rewrite (getitem_nth ys i NaN) by lia. simpl.
  unfold new_angle. simpl.
  destruct (Req_dec_T 0 0) as [_|Hne]; [reflexivity | now elim Hne].
Qed.

(** ** Arithmetic on finite values *)

Lemma ndiv_Fin (a b : R) : b <> 0 -> ndiv (Fin a) (Fin b) = Fin (a / b).
Proof.
  intros Hb. simpl. destruct (Req_dec_T b 0); [contradiction | reflexivity].
Qed.

Lemma ndiv_zero_zero : ndiv (Fin 0) (Fin 0) = NaN.
Proof.
  simpl. destruct (Req_dec_T 0 0) as [_|Hne]; [reflexivity | now elim Hne].
Qed.

Lemma nne_Fin_eq (a b : R) : a = b -> nne (Fin a) (Fin b) = false.
Proof.
  intros Hab. simpl. destruct (Req_dec_T a b); [reflexivity | contradiction].
Qed.

Lemma nne_Fin_neq (a b : R) : a <> b -> nne (Fin a) (Fin b) = true.
Proof.
  intros Hab. simpl. destruct (Req_dec_T a b); [contradiction | reflexivity].
Qed.

Lemma norm_Fin (a b : R) : norm (Fin a, Fin b) = Fin (sqrt (a * a + b * b)).
Proof.
  unfold norm. cbn [fst snd nmul nadd].
  apply nsqrt_nonneg.
  pose proof (Rle_0_sqr a). pose proof (Rle_0_sqr b). unfold Rsqr in *. lra.
Qed.

Lemma Fin_pair (a b c d : R) : a = c -> b = d -> (Fin a, Fin b) = (Fin c, Fin d).
Proof. intros -> ->. reflexivity. Qed.

Lemma sqrt_sum_squares_zero (a b : R) :
  sqrt (a * a + b * b) = 0 <-> a = 0 /\ b = 0.
Proof.
  pose proof (Rle_0_sqr a) as Ha. pose proof (Rle_0_sqr b) as Hb.
  unfold Rsqr in *. split.
  - intros Hs. apply sqrt_eq_0 in Hs; [|lra].
    assert (Ha0 : a * a = 0) by lra. assert (Hb0 : b * b = 0) by lra.
    apply Rmult_integral in Ha0. apply Rmult_integral in Hb0. tauto.
  - intros [-> ->]. rewrite Rmult_0_l, Rplus_0_l. apply sqrt_0.
Qed.

Lemma sqrt_cos_sin (o : R) : sqrt (cos o * cos o + sin o * sin o) = 1.
Proof.
  replace (cos o * cos o + sin o * sin o) with 1.
  - apply sqrt_1.
  - pose proof (sin2_cos2 o) as H. unfold Rsqr in H. lra.
Qed.

(** ** [get_triangle_points] *)

Lemma triple_eq {A B C : Type} (a a' : A) (b b' : B) (c c' : C) :
  a = a' -> b = b' -> c = c' -> (a, b, c) = (a', b', c').
Proof. intros -> -> ->. reflexivity. Qed.

(** C9, amended: in exact real arithmetic the three points returned by
    [get_triangle_points] are the raw beak and wing points, each moved by
    minus the offset between the raw average and [(x, y)]; their centroid
    is [(x, y)]; and the points for the orientation [o] are the points for
    the orientation 0 rotated by [o] about [(x, y)]. *)
Theorem get_triangle_points_centroid (x y o n w a : R) :
  get_triangle_points (Fin x) (Fin y) (Fin o) (Fin n) (Fin w) (Fin a) =
    (fin2 (recentre (raw_beak x y o n) (raw_offset x y o n w a)),
     fin2 (recentre (raw_left x y o w a) (raw_offset x y o n w a)),
     fin2 (recentre (raw_right x y o w a) (raw_offset x y o n w a)))
  /\ centroid (get_triangle_points (Fin x) (Fin y) (Fin o) (Fin n) (Fin w)
                 (Fin a)) = (Fin x, Fin y)
  /\ recentre (raw_beak x y o n) (raw_offset x y o n w a) =
     rotate_about (x, y) o
       (recentre (raw_beak x y 0 n) (raw_offset x y 0 n w a))
  /\ recentre (raw_left x y o w a) (raw_offset x y o n w a) =
     rotate_about (x, y) o
       (recentre (raw_left x y 0 w a) (raw_offset x y 0 n w a))
  /\ recentre (raw_right x y o w a) (raw_offset x y o n w a) =
     rotate_about (x, y) o
       (recentre (raw_right x y 0 w a) (raw_offset x y 0 n w a)).
Proof.
  assert (H3 : 3 <> 0) by lra.
  split; [|split].
  - unfold get_triangle_points, vsub, nsub.
    cbn [fst snd ncos nsin nneg nadd nmul].
    rewrite !(ndiv_Fin _ 3 H3). cbn [fst snd nneg nadd].
    unfold fin2, recentre, raw_offset, raw_beak, raw_left, raw_right.
    cbn [fst snd]. change (o + - a) with (o - a).
    apply triple_eq; apply Fin_pair; field.
  - unfold get_triangle_points, centroid, vsub, nsub.
    cbn [fst snd ncos nsin nneg nadd nmul].
    rewrite !(ndiv_Fin _ 3 H3). cbn [fst snd nneg nadd].
    rewrite !(ndiv_Fin _ 3 H3).
    apply Fin_pair; field.
  - unfold rotate_about, recentre, raw_offset, raw_beak, raw_left, raw_right.
    cbn [fst snd].
    rewrite !cos_minus, !cos_plus, !sin_minus, !sin_plus, cos_0, sin_0.
    repeat split; f_equal; field.
Qed.

(** C9 on the floats: for the call [get_triangle_points(7, 3, 0.0, 30, 10,
    0.0)] the mean of the three returned points is not the center (7, 3):
    its x-coordinate is 6.999999999999999. *)
Lemma centroid_not_exact_on_floats : F64.centroid F64.sample <> F64.sample_center.
Proof.
  intros H.
  assert (E : PrimFloat.eqb (fst (F64.centroid F64.sample)) (fst F64.sample_center) =
              PrimFloat.eqb (fst F64.sample_center) (fst F64.sample_center))
    by (rewrite H; reflexivity).
  vm_compute in E. discriminate E.
Qed.

(** The table of libm values plays no part: any cosine and sine with
    [cos 0.0 = 1.0] and [sin 0.0 = 0.0] give the same points. *)
Lemma sample_any_libm (fcos fsin : PrimFloat.float -> PrimFloat.float) :
  fcos PrimFloat.zero = PrimFloat.one -> fsin PrimFloat.zero = PrimFloat.zero ->
  F64.get_triangle_points fcos fsin
    (fst F64.sample_center) (snd F64.sample_center) PrimFloat.zero
    F64.sample_nose F64.sample_wing PrimFloat.zero = F64.sample.
Proof.
  intros Hc Hs. unfold F64.get_triangle_points.
  change (PrimFloat.sub PrimFloat.zero PrimFloat.zero) with PrimFloat.zero.
  change (PrimFloat.add PrimFloat.zero PrimFloat.zero) with PrimFloat.zero.
  rewrite Hc, Hs. vm_compute. reflexivity.
Qed.

Lemma tanh_bounds (z : R) : -1 < tanh z < 1.
Proof.
  unfold tanh, sinh, cosh.
  pose proof (exp_pos z) as Ha. pose proof (exp_pos (- z)) as Hb.
  set (a := exp z) in *. set (b := exp (- z)) in *.
  replace ((a - b) / 2 / ((a + b) / 2)) with ((a - b) / (a + b)) by (field; lra).
  assert (Hs : 0 < a + b) by lra.
  split.
  - apply Rmult_lt_reg_r with (a + b); [assumption|].
    unfold Rdiv. rewrite Rmult_assoc, Rinv_l by lra. lra.
  - apply Rmult_lt_reg_r with (a + b); [assumption|].
    unfold Rdiv. rewrite Rmult_assoc, Rinv_l by lra. lra.
Qed.

(** The exact remainder by a positive divisor lies in [[0, divisor)] (the
    rounded float result can be the divisor itself). *)
Lemma nmod_range (x y : R) :
  0 < y -> in_range (nmod (Fin x) (Fin y)) 0 y true.
Proof.
  intros Hy. unfold in_range. simpl.
  destruct (Req_dec_T y 0) as [H0|_]; [lra|].
  eexists. split; [reflexivity|].
  destruct (base_Int_part (x / y)) as [Hlo Hhi].
  set (k := IZR (Int_part (x / y))) in *.
  assert (Hx : x = x / y * y) by (field; lra).
  set (q := x / y) in *.
  rewrite Hx. split; nra.
Qed.

(** ** An agent without neighbours *)

Lemma displacement_unit (o s : R) :
  displacement (Fin (cos o), Fin (sin o)) (Fin s) =
  (Fin (s * cos o), Fin (s * sin o)).
Proof.
  unfold displacement. rewrite norm_Fin, sqrt_cos_sin.
  unfold vdiv, vscale. cbn [fst snd].
  rewrite !ndiv_Fin by lra. cbn [nmul].
  apply Fin_pair; field.
Qed.

Lemma zero_neighbor_vector (xs ys os : list num)
    (interaction_radius w0 w1 w2 : num) (i : nat) :
  length ys = length xs -> length os = length xs -> (i < length xs)%nat ->
  near_indices i xs ys interaction_radius = [] ->
  agent_vector xs ys os interaction_radius w0 w1 w2 i =
  Ok (ncos (nth i os NaN), nsin (nth i os NaN)).
Proof.
  intros Hy Ho Hi Hnone. unfold agent_vector.
  rewrite (getitem_nth os i NaN) by lia. simpl.
  rewrite find_neighbors_near by assumption. rewrite Hnone. reflexivity.
Qed.

(** With no neighbour, the displacement is [speed] along the current
    heading and the position moves by it, modulo the canvas; the new
    orientation is computed from that displacement by [new_angle]. *)
Lemma zero_neighbor_update (xs ys os : list num) (canvas_size : num * num)
    (interaction_radius w0 w1 w2 : num) (i : nat) (o s : R) :
  length ys = length xs -> length os = length xs -> (i < length xs)%nat ->
  near_indices i xs ys interaction_radius = [] ->
  nth i os NaN = Fin o ->
  agent_displacement xs ys os (Fin s) interaction_radius w0 w1 w2 i =
    Ok (Fin (s * cos o), Fin (s * sin o))
  /\ agent_update xs ys os canvas_size (Fin s) interaction_radius w0 w1 w2 i =
    Ok (nmod (nadd (Fin (s * cos o)) (nth i xs NaN)) (fst canvas_size),
        nmod (nadd (Fin (s * sin o)) (nth i ys NaN)) (snd canvas_size),
        new_angle (Fin (s * cos o), Fin (s * sin o))).
Proof.
  intros Hy Ho Hi Hnone Hoi.
  assert (Hd : agent_displacement xs ys os (Fin s) interaction_radius w0 w1 w2 i =
               Ok (Fin (s * cos o), Fin (s * sin o))).
  { unfold agent_displacement.
    rewrite zero_neighbor_vector by assumption. rewrite Hoi. simpl bind.
    cbn [ncos nsin]. rewrite displacement_unit. reflexivity. }
  split; [exact Hd|].
  unfold agent_update. rewrite Hd. simpl bind.
  rewrite (getitem_nth xs i NaN) by lia.
  rewrite (getitem_nth ys i NaN) by lia. reflexivity.
Qed.

Lemma new_angle_Fin (dx dy : R) :
  dx <> 0 -> dy <> 0 -> new_angle (Fin dx, Fin dy) = Fin (tanh (dy / dx)).
Proof.
  intros Hx Hy. unfold new_angle. cbn [fst snd].
  rewrite nne_Fin_neq by assumption. rewrite ndiv_Fin by assumption.
  reflexivity.
Qed.

Lemma lone_agent_no_neighbor (x y radius : num) :
  near_indices 0 [x] [y] radius = [].
Proof. reflexivity. Qed.

(** C4, evaluated on a lone agent at the origin heading 3 radians: the
    displacement is [speed] along the heading, but the orientation returned
    is [tanh (tan 3)], which points into the right half-plane while the
    prior heading points into the left one. *)
Theorem zero_neighbor_heading_not_kept :
  exists h : R,
    update_locations [Fin 0] [Fin 0] [Fin 3] (Fin 800, Fin 600) (Fin 5)
      (Fin 100) [Fin 1; Fin 1; Fin 1] =
    Ok ([nmod (Fin (5 * cos 3 + 0)) (Fin 800)],
        [nmod (Fin (5 * sin 3 + 0)) (Fin 600)],
        [Fin h])
    /\ h = tanh (5 * sin 3 / (5 * cos 3))
    /\ cos 3 < 0 < cos h.
Proof.
  pose proof PI2_3_2 as Hpi. pose proof PI_4 as Hpi4.
  assert (Hc : cos 3 < 0) by (apply cos_lt_0; lra).
  assert (Hs : 0 < sin 3) by (apply sin_gt_0; lra).
  eexists. split; [|split; [reflexivity|]].
  - rewrite update_locations_eq by reflexivity. cbn [length seq map].
    unfold agent_next.
    destruct (zero_neighbor_update [Fin 0] [Fin 0] [Fin 3] (Fin 800, Fin 600)
                (Fin 100) (Fin 1) (Fin 1) (Fin 1) 0 3 5) as [_ Hu];
      try reflexivity; [simpl; lia|].
    rewrite Hu. cbn [value_or fst snd nth nadd].
    rewrite new_angle_Fin by nra. reflexivity.
  - split; [exact Hc|].
    pose proof (tanh_bounds (5 * sin 3 / (5 * cos 3))) as Hb.
    apply cos_gt_0; lra.
Qed.

(** ** Forces *)

Lemma fold_left_nadd_Fin (l : list R) (a : R) :
  fold_left nadd (map Fin l) (Fin a) = Fin (a + Rsum l).
Proof.
  revert a. induction l as [|x l IH]; intros a; simpl.
  - f_equal. lra.
  - rewrite IH. f_equal. lra.
Qed.

Lemma nsum_Fin (l : list R) : nsum (map Fin l) = Fin (Rsum l).
Proof.
  unfold nsum. rewrite fold_left_nadd_Fin. f_equal. lra.
Qed.

Lemma INR_length_nonzero {A : Type} (l : list A) : l <> [] -> INR (length l) <> 0.
Proof.
  intros Hl. destruct l as [|a l]; [contradiction|].
  apply not_0_INR. discriminate.
Qed.

Lemma nmean_Fin (l : list R) :
  l <> [] -> nmean (map Fin l) = Fin (Rsum l / INR (length l)).
Proof.
  intros Hl. unfold nmean. rewrite nsum_Fin, length_map.
  apply ndiv_Fin. now apply INR_length_nonzero.
Qed.

Lemma add_forces_with_force (xi yi w0 w1 w2 : num) (v : vec)
    (nxs nys nos : list num) :
  add_forces xi yi w0 w1 w2 v nxs nys nos =
  with_force
    (with_force
       (with_force v (nmean (map ncos nos), nmean (map nsin nos)) w0)
       (nsub (nmean nxs) xi, nsub (nmean nys) yi) w1)
    (nmul (Fin (-1)) (nsum (map (fun nx => nsub nx xi) nxs)),
     nmul (Fin (-1)) (nsum (map (fun nx => nsub nx xi) nxs))) w2.
Proof. reflexivity. Qed.

Lemma with_force_zero (v : vec) (w : num) (f g : R) :
  f = 0 -> g = 0 -> with_force v (Fin f, Fin g) w = v.
Proof.
  intros -> ->. unfold with_force. rewrite norm_Fin.
  rewrite nne_Fin_eq; [reflexivity|].
  apply sqrt_sum_squares_zero. split; reflexivity.
Qed.

Lemma with_force_nonzero (v : vec) (w : num) (f g : R) :
  f <> 0 \/ g <> 0 ->
  with_force v (Fin f, Fin g) w =
  vadd v (vscale (Fin (f / sqrt (f * f + g * g)), Fin (g / sqrt (f * f + g * g))) w).
Proof.
  intros Hfg.
  assert (Hn : sqrt (f * f + g * g) <> 0).
  { intros Hs. apply sqrt_sum_squares_zero in Hs. tauto. }
  unfold with_force. rewrite norm_Fin, nne_Fin_neq by assumption.
  unfold vdiv. cbn [fst snd]. rewrite !ndiv_Fin by assumption. reflexivity.
Qed.

Lemma map_map_nth_Fin (l : list R) (js : list nat) :
  (forall j, In j js -> (j < length l)%nat) ->
  map (fun j => nth j (map Fin l) NaN) js = map Fin (map (fun j => nth j l 0) js).
Proof.
  intros Hjs. rewrite map_map. apply map_ext_in. intros j Hj.
  apply nth_map_Fin. auto.
Qed.

Lemma neighbor_indices_bound (rxs rys : list R) (idx : nat) (r : R) (j : nat) :
  In j (neighbor_indices rxs rys idx r) -> (j < length rxs)%nat.
Proof.
  intros Hj. apply filter_In in Hj. destruct Hj as [Hj _].
  apply in_seq in Hj. lia.
Qed.

Lemma separation_sum_Fin (rxs : list R) (i : nat) (js : list nat) :
  (i < length rxs)%nat -> (forall j, In j js -> (j < length rxs)%nat) ->
  nmul (Fin (-1))
    (nsum (map (fun nx => nsub nx (nth i (map Fin rxs) NaN))
               (map (fun j => nth j (map Fin rxs) NaN) js))) =
  Fin (separation_component rxs i js).
Proof.
  intros Hi Hjs. rewrite nth_map_Fin by assumption.
  rewrite map_map_nth_Fin by assumption. rewrite !map_map.
  replace (map (fun j => nsub (Fin (nth j rxs 0)) (Fin (nth i rxs 0))) js)
    with (map Fin (map (fun j => nth j rxs 0 - nth i rxs 0) js)).
  - rewrite nsum_Fin. unfold separation_component. cbn [nmul]. f_equal. ring.
  - rewrite map_map. reflexivity.
Qed.

(** The direction vector of an agent that has neighbours, on a population
    with real coordinates. *)
Lemma agent_vector_forces (rxs rys : list R) (os : list num) (r : R)
    (w0 w1 w2 : num) (i : nat) :
  length rys = length rxs -> length os = length rxs -> (i < length rxs)%nat ->
  neighbor_indices rxs rys i r <> [] ->
  agent_vector (map Fin rxs) (map Fin rys) os (Fin r) w0 w1 w2 i =
  Ok (with_force
        (with_force
           (with_force (ncos (nth i os NaN), nsin (nth i os NaN))
              (alignment_force os (neighbor_indices rxs rys i r)) w0)
           (cohesion_force rxs rys i (neighbor_indices rxs rys i r)) w1)
        (separation_force rxs i (neighbor_indices rxs rys i r)) w2).
Proof.
  intros Hy Ho Hi Hjs. unfold agent_vector.
  rewrite (getitem_nth os i NaN) by lia. simpl bind.
  rewrite find_neighbors_near by (rewrite !length_map; assumption).
  rewrite near_indices_Fin by assumption.
  set (js := neighbor_indices rxs rys i r) in *.
  assert (Hbx : forall j, In j js -> (j < length rxs)%nat)
    by (intros j Hj; eapply neighbor_indices_bound; exact Hj).
  assert (Hby : forall j, In j js -> (j < length rys)%nat)
    by (intros j Hj; rewrite Hy; auto).
  simpl bind. rewrite length_map.
  destruct js as [|j0 js'] eqn:Ejs; [contradiction|].
  rewrite <- Ejs in *. replace (negb (length js =? 0)%nat) with true
    by (rewrite Ejs; reflexivity).
  rewrite (getitem_nth (map Fin rxs) i NaN) by (rewrite length_map; lia).
  rewrite (getitem_nth (map Fin rys) i NaN) by (rewrite length_map; lia).
  simpl bind. rewrite add_forces_with_force.
  rewrite separation_sum_Fin by assumption.
  rewrite !map_map.
  rewrite (map_map_nth_Fin rxs js Hbx), (map_map_nth_Fin rys js Hby).
  rewrite !nmean_Fin by (rewrite Ejs; discriminate).
  rewrite !nth_map_Fin by lia. rewrite !length_map.
  reflexivity.
Qed.


(** ** A two-agent population on which the final normalization divides by zero

    Agent 0 is at (1, 0), agent 1 at (0, 0), both heading 0; the weights are
    (0, 1, 0).  Cohesion pulls agent 0 by exactly the opposite of its unit
    heading vector, so its combined vector is the zero vector. *)

Lemma with_force_weight_zero (a b f g : R) :
  with_force (Fin a, Fin b) (Fin f, Fin g) (Fin 0) = (Fin a, Fin b).
Proof.
  destruct (Req_dec_T f 0) as [Hf|Hf]; [destruct (Req_dec_T g 0) as [Hg|Hg]|].
  - apply with_force_zero; assumption.
  - rewrite with_force_nonzero by (right; exact Hg).
    unfold vadd, vscale. cbn [fst snd nmul nadd]. apply Fin_pair; ring.
  - rewrite with_force_nonzero by (left; exact Hf).
    unfold vadd, vscale. cbn [fst snd nmul nadd]. apply Fin_pair; ring.
Qed.

Lemma with_force_unit (a b f g w : R) :
  f * f + g * g = 1 ->
  with_force (Fin a, Fin b) (Fin f, Fin g) (Fin w) =
  (Fin (a + f * w), Fin (b + g * w)).
Proof.
  intros Hu.
  assert (Hfg : f <> 0 \/ g <> 0).
  { destruct (Req_dec_T f 0) as [Hf|Hf]; [right|left; exact Hf].
    intros Hg. subst. lra. }
  rewrite with_force_nonzero by exact Hfg. rewrite Hu, sqrt_1.
  unfold vadd, vscale. cbn [fst snd nmul nadd]. apply Fin_pair; field.
Qed.

Lemma pair_neighbor_indices : neighbor_indices [1; 0] [0; 0] 0 100 = [1%nat].
Proof.
  unfold neighbor_indices, is_neighbor, euclid. cbn [length seq filter Nat.eqb negb andb nth].
  replace ((0 - 1) ^ 2 + (0 - 0) ^ 2) with 1 by ring. rewrite sqrt_1.
  destruct (Rlt_dec 1 100) as [_|Hn]; [reflexivity | lra].
Qed.

Lemma pair_agent_vector :
  agent_vector [Fin 1; Fin 0] [Fin 0; Fin 0] [Fin 0; Fin 0] (Fin 100)
    (Fin 0) (Fin 1) (Fin 0) 0 = Ok (Fin 0, Fin 0).
Proof.
  change [Fin 1; Fin 0] with (map Fin [1; 0]).
  change [Fin 0; Fin 0] with (map Fin [0; 0]) at 1.
  rewrite agent_vector_forces;
    try reflexivity; [|simpl; lia | rewrite pair_neighbor_indices; discriminate].
  rewrite pair_neighbor_indices.
  unfold alignment_force, cohesion_force, separation_force, separation_component.
  cbn [map nth ncos nsin length Rsum fold_right INR].
  change [Fin (cos 0)] with (map Fin [cos 0]).
  change [Fin (sin 0)] with (map Fin [sin 0]).
  rewrite !nmean_Fin by discriminate.
  rewrite with_force_weight_zero.
  rewrite with_force_unit by (field_simplify; lra).
  rewrite with_force_weight_zero.
  rewrite cos_0, sin_0. apply f_equal. apply Fin_pair; field.
Qed.

Lemma norm_zero : norm (Fin 0, Fin 0) = Fin 0.
Proof.
  rewrite norm_Fin. f_equal. apply sqrt_sum_squares_zero. split; reflexivity.
Qed.

Lemma displacement_zero (speed : num) : displacement (Fin 0, Fin 0) speed = (NaN, NaN).
Proof.
  unfold displacement. rewrite norm_zero. unfold vdiv, vscale. cbn [fst snd].
  rewrite ndiv_zero_zero. reflexivity.
Qed.

Lemma pair_agent_update :
  agent_update [Fin 1; Fin 0] [Fin 0; Fin 0] [Fin 0; Fin 0] (Fin 800, Fin 600)
    (Fin 5) (Fin 100) (Fin 0) (Fin 1) (Fin 0) 0 = Ok (NaN, NaN, NaN).
Proof.
  unfold agent_update, agent_displacement. rewrite pair_agent_vector.
  cbn [bind]. rewrite displacement_zero. reflexivity.
Qed.

Lemma pair_update_locations :
  exists x1 y1 o1,
    update_locations [Fin 1; Fin 0] [Fin 0; Fin 0] [Fin 0; Fin 0]
      (Fin 800, Fin 600) (Fin 5) (Fin 100) [Fin 0; Fin 1; Fin 0] =
    Ok ([NaN; x1], [NaN; y1], [NaN; o1]).
Proof.
  eexists _, _, _.
  rewrite update_locations_eq by reflexivity. cbn [length seq map].
  unfold agent_next at 1 3 5. rewrite pair_agent_update. reflexivity.
Qed.

Lemma NaN_not_in_range (lo hi : R) (strict : bool) : ~ in_range NaN lo hi strict.
Proof. intros [r [Hr _]]. discriminate Hr. Qed.

(** C3, evaluated on the two-agent population above: the combined vector
    of agent 0 is the zero vector, the final normalization divides it by
    its zero norm, and the step returns NaN for that agent. *)
Theorem final_normalization_divides_by_zero :
  agent_vector [Fin 1; Fin 0] [Fin 0; Fin 0] [Fin 0; Fin 0] (Fin 100)
    (Fin 0) (Fin 1) (Fin 0) 0 = Ok (Fin 0, Fin 0)
  /\ norm (Fin 0, Fin 0) = Fin 0
  /\ displacement (Fin 0, Fin 0) (Fin 5) = (NaN, NaN)
  /\ exists x1 y1 o1,
       update_locations [Fin 1; Fin 0] [Fin 0; Fin 0] [Fin 0; Fin 0]
         (Fin 800, Fin 600) (Fin 5) (Fin 100) [Fin 0; Fin 1; Fin 0] =
       Ok ([NaN; x1], [NaN; y1], [NaN; o1]).
Proof.
  split; [exact pair_agent_vector|].
  split; [exact norm_zero|].
  split; [apply displacement_zero | exact pair_update_locations].
Qed.

(** C2, evaluated on the same population: the position returned for
    agent 0 is NaN, which lies in no interval. *)
Theorem position_not_in_canvas :
  exists new_xs new_ys new_os,
    update_locations [Fin 1; Fin 0] [Fin 0; Fin 0] [Fin 0; Fin 0]
      (Fin 800, Fin 600) (Fin 5) (Fin 100) [Fin 0; Fin 1; Fin 0] =
    Ok (new_xs, new_ys, new_os)
    /\ ~ in_range (nth 0 new_xs (Fin 0)) 0 800 true
    /\ ~ in_range (nth 0 new_ys (Fin 0)) 0 600 true.
Proof.
  destruct pair_update_locations as [x1 [y1 [o1 H]]].
  eexists _, _, _. split; [exact H|].
  split; apply NaN_not_in_range.
Qed.

(** C10, evaluated on the same population: the heading returned for
    agent 0 is NaN, not a number of [[-1, 1]]. *)
Theorem heading_not_in_unit_interval :
  exists new_xs new_ys new_os,
    update_locations [Fin 1; Fin 0] [Fin 0; Fin 0] [Fin 0; Fin 0]
      (Fin 800, Fin 600) (Fin 5) (Fin 100) [Fin 0; Fin 1; Fin 0] =
    Ok (new_xs, new_ys, new_os)
    /\ nth 0 new_os (Fin 0) = NaN
    /\ ~ in_range (nth 0 new_os (Fin 0)) (-1) 1 false.
Proof.
  destruct pair_update_locations as [x1 [y1 [o1 H]]].
  eexists _, _, _. split; [exact H|].
  split; [reflexivity | apply NaN_not_in_range].
Qed.

(** ** What holds away from the zero vector

    In the exact arithmetic of the model: on finite inputs every guarded
    normalization yields finite values, so the combined vector of each
    agent is finite; whenever it is not the zero vector, the new position
    lies on the canvas and the new orientation in [[-1, 1]]. *)

Lemma with_force_finite (a b f g w : R) :
  exists a' b', with_force (Fin a, Fin b) (Fin f, Fin g) (Fin w) = (Fin a', Fin b').
Proof.
  destruct (Req_dec_T f 0) as [Hf|Hf]; [destruct (Req_dec_T g 0) as [Hg|Hg]|].
  - rewrite with_force_zero by assumption. eauto.
  - rewrite with_force_nonzero by (right; exact Hg).
    unfold vadd, vscale. cbn [fst snd nmul nadd]. eauto.
  - rewrite with_force_nonzero by (left; exact Hf).
    unfold vadd, vscale. cbn [fst snd nmul nadd]. eauto.
Qed.

Lemma alignment_force_finite (ros : list R) (js : list nat) :
  js <> [] -> (forall j, In j js -> (j < length ros)%nat) ->
  exists f g, alignment_force (map Fin ros) js = (Fin f, Fin g).
Proof.
  intros Hne Hjs. unfold alignment_force.
  rewrite (map_ext_in (fun j => ncos (nth j (map Fin ros) NaN))
                      (fun j => Fin (cos (nth j ros 0))))
    by (intros j Hj; rewrite nth_map_Fin by auto; reflexivity).
  rewrite (map_ext_in (fun j => nsin (nth j (map Fin ros) NaN))
                      (fun j => Fin (sin (nth j ros 0))))
    by (intros j Hj; rewrite nth_map_Fin by auto; reflexivity).
  rewrite <- (map_map (fun j => cos (nth j ros 0)) Fin).
  rewrite <- (map_map (fun j => sin (nth j ros 0)) Fin).
  rewrite !nmean_Fin by (destruct js; [contradiction | discriminate]).
  eauto.
Qed.

Lemma agent_vector_finite (rxs rys ros : list R) (r w0 w1 w2 : R) (i : nat) :
  length rys = length rxs -> length ros = length rxs -> (i < length rxs)%nat ->
  exists a b,
    agent_vector (map Fin rxs) (map Fin rys) (map Fin ros) (Fin r)
      (Fin w0) (Fin w1) (Fin w2) i = Ok (Fin a, Fin b).
Proof.
  intros Hy Ho Hi.
  destruct (neighbor_indices rxs rys i r) as [|j0 js'] eqn:Ejs.
  - rewrite zero_neighbor_vector;
      rewrite ?length_map; try assumption.
    + rewrite nth_map_Fin by lia. cbn [ncos nsin]. eauto.
    + rewrite near_indices_Fin by assumption. exact Ejs.
  - rewrite agent_vector_forces;
      rewrite ?length_map; try assumption; [|rewrite Ejs; discriminate].
    rewrite nth_map_Fin by lia. cbn [ncos nsin].
    destruct (alignment_force_finite ros (neighbor_indices rxs rys i r))
      as [f [g Hal]].
    { rewrite Ejs. discriminate. }
    { intros j Hj. rewrite Ho. eapply neighbor_indices_bound. exact Hj. }
    rewrite Hal.
    destruct (with_force_finite (cos (nth i ros 0)) (sin (nth i ros 0)) f g w0)
      as [a1 [b1 H1]]. rewrite H1.
    unfold cohesion_force.
    match goal with
    | |- context [with_force (Fin a1, Fin b1) (Fin ?cx, Fin ?cy) (Fin w1)] =>
        destruct (with_force_finite a1 b1 cx cy w1) as [a2 [b2 H2]]; rewrite H2
    end.
    unfold separation_force.
    match goal with
    | |- context [with_force (Fin a2, Fin b2) (Fin ?sx, Fin ?sy) (Fin w2)] =>
        destruct (with_force_finite a2 b2 sx sy w2) as [a3 [b3 H3]]; rewrite H3
    end.
    eauto.
Qed.

Lemma displacement_nonzero (a b s : R) :
  a <> 0 \/ b <> 0 ->
  displacement (Fin a, Fin b) (Fin s) =
  (Fin (a / sqrt (a * a + b * b) * s), Fin (b / sqrt (a * a + b * b) * s)).
Proof.
  intros Hab.
  assert (Hn : sqrt (a * a + b * b) <> 0).
  { intros Hz. apply sqrt_sum_squares_zero in Hz. tauto. }
  unfold displacement. rewrite norm_Fin. unfold vdiv, vscale. cbn [fst snd].
  rewrite !ndiv_Fin by assumption. reflexivity.
Qed.

Lemma new_angle_range (dx dy : R) : in_range (new_angle (Fin dx, Fin dy)) (-1) 1 false.
Proof.
  unfold new_angle, in_range. cbn [fst snd].
  destruct (Req_dec_T dy 0) as [Hy|Hy].
  - rewrite nne_Fin_eq by assumption. exists 0. split; [reflexivity | lra].
  - rewrite nne_Fin_neq by assumption.
    destruct (Req_dec_T dx 0) as [Hx|Hx].
    + subst dx. simpl.
      destruct (Req_dec_T 0 0) as [_|Hn]; [|now elim Hn].
      destruct (Req_dec_T dy 0) as [Hy'|_]; [contradiction|].
      simpl. destruct (sign_neg dy); eexists; (split; [reflexivity | lra]).
    + rewrite ndiv_Fin by assumption. simpl.
      pose proof (tanh_bounds (dy / dx)). eexists. split; [reflexivity | lra].
Qed.

(** Support for C2 and C10, in exact arithmetic: on finite inputs and a
    canvas of positive size, an agent whose combined vector is not the zero
    vector gets a position on the canvas and an orientation in [[-1, 1]]. *)
Lemma agent_update_in_range (rxs rys ros : list R) (W H s r w0 w1 w2 : R)
    (i : nat) (a b : R) :
  length rys = length rxs -> length ros = length rxs -> (i < length rxs)%nat ->
  0 < W -> 0 < H ->
  agent_vector (map Fin rxs) (map Fin rys) (map Fin ros) (Fin r)
    (Fin w0) (Fin w1) (Fin w2) i = Ok (Fin a, Fin b) ->
  a <> 0 \/ b <> 0 ->
  exists x y h,
    agent_update (map Fin rxs) (map Fin rys) (map Fin ros) (Fin W, Fin H)
      (Fin s) (Fin r) (Fin w0) (Fin w1) (Fin w2) i = Ok (x, y, h)
    /\ in_range x 0 W true /\ in_range y 0 H true /\ in_range h (-1) 1 false.
Proof.
  intros Hy Ho Hi HW HH Hv Hab.
  unfold agent_update, agent_displacement. rewrite Hv. cbn [bind].
  rewrite displacement_nonzero by assumption.
  rewrite (getitem_nth (map Fin rxs) i NaN) by (rewrite length_map; lia).
  rewrite (getitem_nth (map Fin rys) i NaN) by (rewrite length_map; lia).
  cbn [bind fst snd]. rewrite !nth_map_Fin by lia. cbn [nadd].
  eexists _, _, _. split; [reflexivity|].
  split; [apply nmod_range; assumption|].
  split; [apply nmod_range; assumption | apply new_angle_range].
Qed.

(** The division of the orientation formula is guarded on the y-component
    only: in exact arithmetic a lone agent heading pi/2 has a displacement
    with x-component 0, and the quotient is an infinity (the float nearest
    to pi/2 has a small non-zero cosine). *)
Lemma heading_quotient_infinite :
  agent_displacement [Fin 0] [Fin 0] [Fin (PI / 2)] (Fin 5) (Fin 100)
    (Fin 1) (Fin 1) (Fin 1) 0 = Ok (Fin 0, Fin 5)
  /\ ndiv (Fin 5) (Fin 0) = Inf false
  /\ new_angle (Fin 0, Fin 5) = Fin 1.
Proof.
  assert (Hq : ndiv (Fin 5) (Fin 0) = Inf false).
  { simpl. destruct (Req_dec_T 0 0) as [_|Hn]; [|now elim Hn].
    destruct (Req_dec_T 5 0) as [H5|_]; [lra|].
    unfold sign_neg. destruct (Rlt_dec 5 0); [lra | reflexivity]. }
  split; [|split; [exact Hq|]].
  - destruct (zero_neighbor_update [Fin 0] [Fin 0] [Fin (PI / 2)]
                (Fin 800, Fin 600) (Fin 100) (Fin 1) (Fin 1) (Fin 1) 0
                (PI / 2) 5) as [Hd _]; try reflexivity; [simpl; lia|].
    rewrite Hd, cos_PI2, sin_PI2. apply f_equal. apply Fin_pair; ring.
  - unfold new_angle. cbn [fst snd]. rewrite nne_Fin_neq by lra.
    rewrite Hq. reflexivity.
Qed.

(** ** Concrete instances *)



(** A 2-tuple of weights is rejected. *)
Lemma update_locations_bad_weights_witness :
  update_locations [Fin 1; Fin 0] [Fin 0; Fin 0] [Fin 0; Fin 0]
    (Fin 800, Fin 600) (Fin 5) (Fin 100) [Fin 1; Fin 1] =
  Raise (AssertionError weights_message).
Proof.
  apply (update_locations_bad_weights [Fin 1; Fin 0] [Fin 0; Fin 0]
           [Fin 0; Fin 0] (Fin 800, Fin 600) (Fin 5) (Fin 100) [Fin 1; Fin 1]).
  simpl. lia.
Defined.

(** A 4-tuple of weights is rejected as well. *)
Lemma update_locations_four_weights :
  update_locations [Fin 1; Fin 0] [Fin 0; Fin 0] [Fin 0; Fin 0]
    (Fin 800, Fin 600) (Fin 5) (Fin 100) [Fin 1; Fin 1; Fin 1; Fin 1] =
  Raise (AssertionError weights_message).
Proof. reflexivity. Qed.

Lemma lone_agent_displacement_PI :
  agent_displacement [Fin 0] [Fin 0] [Fin PI] (Fin 5) (Fin 100)
    (Fin 1) (Fin 1) (Fin 1) 0 = Ok (Fin (-5), Fin 0).
Proof.
  destruct (zero_neighbor_update [Fin 0] [Fin 0] [Fin PI]
              (Fin 800, Fin 600) (Fin 100) (Fin 1) (Fin 1) (Fin 1) 0 PI 5)
    as [Hd _]; try reflexivity; [simpl; lia|].
  rewrite Hd, cos_PI, sin_PI. apply f_equal. apply Fin_pair; ring.
Qed.

(** A lone agent heading pi moves by (-5, 0) and gets the orientation 0. *)
Lemma zero_y_displacement_heading_witness :
  exists new_xs new_ys new_os,
    update_locations [Fin 0] [Fin 0] [Fin PI] (Fin 800, Fin 600) (Fin 5)
      (Fin 100) [Fin 1; Fin 1; Fin 1] = Ok (new_xs, new_ys, new_os)
    /\ nth 0 new_os NaN = Fin 0.
Proof.
  apply (zero_y_displacement_heading [Fin 0] [Fin 0] [Fin PI]
           (Fin 800, Fin 600) (Fin 5) (Fin 100) [Fin 1; Fin 1; Fin 1] 0
           (Fin (-5))); try reflexivity; [simpl; lia|].
  exact lone_agent_displacement_PI.
Defined.


(** The two-agent population is stepped into a two-agent population. *)
Lemma update_locations_index_alignment_witness :
  exists new_xs new_ys new_os,
    update_locations [Fin 1; Fin 0] [Fin 0; Fin 0] [Fin 0; Fin 0]
      (Fin 800, Fin 600) (Fin 5) (Fin 100) [Fin 1; Fin 1; Fin 1] =
      Ok (new_xs, new_ys, new_os)
    /\ length new_xs = 2%nat /\ length new_ys = 2%nat /\ length new_os = 2%nat.
Proof.
  destruct (update_locations_index_alignment [Fin 1; Fin 0] [Fin 0; Fin 0]
              [Fin 0; Fin 0] (Fin 800, Fin 600) (Fin 5) (Fin 100)
              [Fin 1; Fin 1; Fin 1])
    as [nx [ny [no [Hres [Hx [Hy [Ho _]]]]]]]; try reflexivity.
  exists nx, ny, no. repeat split; assumption.
Defined.

(** In exact arithmetic the zero vector also arises with the default
    weights (1, 1, 1): agent 0 at (0, 0) heading 0, agent 1 at (1, 1) heading
    pi.  Alignment cancels the heading vector, and cohesion and separation
    cancel each other. *)

Lemma diagonal_neighbor_indices : neighbor_indices [0; 1] [0; 1] 0 100 = [1%nat].
Proof.
  unfold neighbor_indices, is_neighbor, euclid.
  cbn [length seq filter Nat.eqb negb andb nth].
  assert (Hlt : sqrt ((1 - 0) ^ 2 + (1 - 0) ^ 2) < 100).
  { replace 100 with (sqrt (100 * 100)) by (apply sqrt_square; lra).
    apply sqrt_lt_1; lra. }
  destruct (Rlt_dec (sqrt ((1 - 0) ^ 2 + (1 - 0) ^ 2)) 100) as [_|Hn];
    [reflexivity | contradiction].
Qed.

Lemma diagonal_agent_vector :
  agent_vector [Fin 0; Fin 1] [Fin 0; Fin 1] [Fin 0; Fin PI] (Fin 100)
    (Fin 1) (Fin 1) (Fin 1) 0 = Ok (Fin 0, Fin 0).
Proof.
  change [Fin 0; Fin 1] with (map Fin [0; 1]).
  rewrite agent_vector_forces;
    try reflexivity; [|simpl; lia | rewrite diagonal_neighbor_indices; discriminate].
  rewrite diagonal_neighbor_indices.
  unfold alignment_force, cohesion_force, separation_force, separation_component.
  cbn [map nth ncos nsin length Rsum fold_right INR].
  change [Fin (cos PI)] with (map Fin [cos PI]).
  change [Fin (sin PI)] with (map Fin [sin PI]).
  rewrite !nmean_Fin by discriminate.
  cbn [map nth length Rsum fold_right INR].
  rewrite cos_0, sin_0, cos_PI, sin_PI.
  rewrite with_force_unit by field.
  rewrite with_force_nonzero by (left; lra).
  unfold vadd, vscale. cbn [fst snd nmul nadd].
  rewrite with_force_nonzero by (left; lra).
  unfold vadd, vscale. cbn [fst snd nmul nadd].
  assert (H2 : sqrt 2 <> 0).
  { pose proof (sqrt_lt_R0 2). lra. }
  replace ((1 + 0) / 1 - 0) with 1 by field.
  replace (- (1 - 0 + 0)) with (-1) by ring.
  replace (1 * 1 + 1 * 1) with 2 by ring.
  replace (-1 * -1 + -1 * -1) with 2 by ring.
  apply f_equal. apply Fin_pair; field; assumption.
Qed.

Lemma diagonal_update_locations :
  exists x1 y1 o1,
    update_locations [Fin 0; Fin 1] [Fin 0; Fin 1] [Fin 0; Fin PI]
      (Fin 800, Fin 600) (Fin 5) (Fin 100) [Fin 1; Fin 1; Fin 1] =
    Ok ([NaN; x1], [NaN; y1], [NaN; o1]).
Proof.
  eexists _, _, _.
  rewrite update_locations_eq by reflexivity. cbn [length seq map].
  assert (Hu : agent_update [Fin 0; Fin 1] [Fin 0; Fin 1] [Fin 0; Fin PI]
                 (Fin 800, Fin 600) (Fin 5) (Fin 100) (Fin 1) (Fin 1) (Fin 1) 0 =
               Ok (NaN, NaN, NaN)).
  { unfold agent_update, agent_displacement. rewrite diagonal_agent_vector.
    cbn [bind]. rewrite displacement_zero. reflexivity. }
  unfold agent_next at 1 3 5. rewrite Hu. reflexivity.
Qed.

(** ** Whole-population consequences and index errors *)

Lemma nonzero_pair (a b : R) :
  (Fin a, Fin b) <> (Fin 0, Fin 0) -> a <> 0 \/ b <> 0.
Proof.
  intros Hne. destruct (Req_dec_T a 0) as [Ha|Ha]; [|left; exact Ha].
  right. intros Hb. subst. now elim Hne.
Qed.

(** In exact arithmetic: on finite inputs, if no agent's combined vector is
    the zero vector, every returned position is on the canvas and every
    returned orientation is in [[-1, 1]]. *)
Lemma update_locations_in_range (rxs rys ros : list R) (W H s r w0 w1 w2 : R) :
  length rys = length rxs -> length ros = length rxs -> 0 < W -> 0 < H ->
  (forall i, (i < length rxs)%nat ->
     agent_vector (map Fin rxs) (map Fin rys) (map Fin ros) (Fin r)
       (Fin w0) (Fin w1) (Fin w2) i <> Ok (Fin 0, Fin 0)) ->
  exists new_xs new_ys new_os,
    update_locations (map Fin rxs) (map Fin rys) (map Fin ros) (Fin W, Fin H)
      (Fin s) (Fin r) [Fin w0; Fin w1; Fin w2] = Ok (new_xs, new_ys, new_os)
    /\ Forall (fun x => in_range x 0 W true) new_xs
    /\ Forall (fun y => in_range y 0 H true) new_ys
    /\ Forall (fun o => in_range o (-1) 1 false) new_os.
Proof.
  intros Hy Ho HW HH Hnz.
  eexists _, _, _. split.
  { apply update_locations_eq; rewrite !length_map; assumption. }
  rewrite length_map.
  assert (Hall : forall i, (i < length rxs)%nat ->
            exists x y h,
              agent_next (map Fin rxs) (map Fin rys) (map Fin ros) (Fin W, Fin H)
                (Fin s) (Fin r) (Fin w0) (Fin w1) (Fin w2) i = (x, y, h)
              /\ in_range x 0 W true /\ in_range y 0 H true
              /\ in_range h (-1) 1 false).
  { intros i Hi.
    destruct (agent_vector_finite rxs rys ros r w0 w1 w2 i Hy Ho Hi)
      as [a [b Hv]].
    assert (Hab : a <> 0 \/ b <> 0).
    { apply nonzero_pair. intros Heq. apply (Hnz i Hi). rewrite Hv, Heq.
      reflexivity. }
    destruct (agent_update_in_range rxs rys ros W H s r w0 w1 w2 i a b
                Hy Ho Hi HW HH Hv Hab) as [x [y [h [Hu Hr]]]].
    exists x, y, h. split; [|exact Hr].
    unfold agent_next. rewrite Hu. reflexivity. }
  repeat split; apply Forall_forall; intros v Hv;
    apply in_map_iff in Hv; destruct Hv as [i [Hv Hi]];
    apply in_seq in Hi;
    destruct (Hall i ltac:(lia)) as [x [y [h [Hn [Hx [Hy' Hh]]]]]];
    rewrite Hn in Hv; cbn [fst snd] in Hv; subst v; assumption.
Qed.

(** Reading past the end of a sequence raises [IndexError]. *)
Lemma find_neighbors_index_error (idx : nat) (xs ys os : list num) (distance : num) :
  (length xs <= idx)%nat ->
  find_neighbors idx xs ys os distance = Raise IndexError.
Proof.
  intros Hidx. unfold find_neighbors. rewrite getitem_out by assumption.
  reflexivity.
Qed.

(** * Further properties of [find_neighbors] *)

Lemma find_neighbors_ok (idx : nat) (xs ys os : list num) (distance : num) :
  (idx < length xs)%nat -> (idx < length ys)%nat ->
  find_neighbors idx xs ys os distance =
  Ok (fold_left
        (find_neighbors_body idx (nth idx xs NaN) (nth idx ys NaN) distance)
        (enumerate (zip3 xs ys os)) ([], [], [])).
Proof.
  intros Hx Hy. unfold find_neighbors.
  rewrite (getitem_nth xs idx NaN) by assumption.
  rewrite (getitem_nth ys idx NaN) by assumption. reflexivity.
Qed.

(** X1: [find_neighbors] raises [IndexError] exactly when [idx] is past the
    end of [xs] or of [ys]; the length of [os] never makes it raise. *)
Theorem find_neighbors_raises_iff (idx : nat) (xs ys os : list num) (distance : num) :
  find_neighbors idx xs ys os distance = Raise IndexError <->
  (length xs <= idx \/ length ys <= idx)%nat.
Proof.
  split.
  - intros Hr.
    destruct (Nat.lt_ge_cases idx (length xs)) as [Hx|Hx]; [|left; exact Hx].
    destruct (Nat.lt_ge_cases idx (length ys)) as [Hy|Hy]; [|right; exact Hy].
    rewrite find_neighbors_ok in Hr by assumption. discriminate Hr.
  - intros [Hx|Hy].
    + apply find_neighbors_index_error. exact Hx.
    + unfold find_neighbors.
      destruct (getitem xs idx) as [x0|e] eqn:Ex.
      * cbn [bind]. rewrite getitem_out by assumption. reflexivity.
      * unfold getitem in Ex. destruct (nth_error xs idx); [discriminate|].
        injection Ex as <-. reflexivity.
Qed.

Lemma zip3_length_min {A B C : Type} (xs : list A) (ys : list B) (os : list C) :
  length (zip3 xs ys os) = Nat.min (Nat.min (length xs) (length ys)) (length os).
Proof. unfold zip3. rewrite !length_combine. reflexivity. Qed.

Lemma filter_length_le' {A : Type} (p : A -> bool) (l : list A) :
  (length (filter p l) <= length l)%nat.
Proof.
  induction l as [|a l IH]; simpl; [lia|]. destruct (p a); simpl; lia.
Qed.

Lemma filter_length_lt {A : Type} (p : A -> bool) (l : list A) (a : A) :
  In a l -> p a = false -> (length (filter p l) < length l)%nat.
Proof.
  induction l as [|b l IH]; simpl; [contradiction|].
  intros [->|Hin] Hp.
  - rewrite Hp. pose proof (filter_length_le' p l). lia.
  - specialize (IH Hin Hp). destruct (p b); simpl; lia.
Qed.

Lemma selected_length (idx : nat) (x0 y0 distance : num)
    (zs : list (num * num * num)) :
  (length (selected idx x0 y0 distance zs) <= length zs)%nat
  /\ ((idx < length zs)%nat ->
      (length (selected idx x0 y0 distance zs) < length zs)%nat).
Proof.
  unfold selected. split.
  - rewrite <- (length_seq (length zs) 0) at 2. apply filter_length_le'.
  - intros Hidx. rewrite <- (length_seq (length zs) 0) at 2.
    apply filter_length_lt with (a := idx).
    + apply in_seq. lia.
    + rewrite Nat.eqb_refl. reflexivity.
Qed.

(** X2: whatever the lengths of the inputs, the three arrays returned by
    [find_neighbors] have the same length, at most the length of the
    shortest input, and strictly less when [idx] is an index of all
    three inputs (the agent itself is left out). *)
Theorem find_neighbors_lengths (idx : nat) (xs ys os : list num)
    (distance : num) (ax ay ao : list num) :
  find_neighbors idx xs ys os distance = Ok (ax, ay, ao) ->
  length ay = length ax /\ length ao = length ax
  /\ (length ax <= Nat.min (Nat.min (length xs) (length ys)) (length os))%nat
  /\ ((idx < Nat.min (Nat.min (length xs) (length ys)) (length os))%nat ->
      (length ax < Nat.min (Nat.min (length xs) (length ys)) (length os))%nat).
Proof.
  intros Hres.
  destruct (Nat.lt_ge_cases idx (length xs)) as [Hx|Hx];
    [|rewrite find_neighbors_index_error in Hres by assumption; discriminate].
  destruct (Nat.lt_ge_cases idx (length ys)) as [Hy|Hy].
  2:{ assert (Hr : find_neighbors idx xs ys os distance = Raise IndexError)
        by (apply find_neighbors_raises_iff; right; exact Hy).
      rewrite Hr in Hres. discriminate. }
  rewrite find_neighbors_ok in Hres by assumption.
  rewrite find_neighbors_loop in Hres. injection Hres as <- <- <-.
  rewrite !length_map, <- zip3_length_min.
  pose proof (selected_length idx (nth idx xs NaN) (nth idx ys NaN) distance
                (zip3 xs ys os)) as [Hle Hlt].
  repeat split; assumption.
Qed.

(** Agents at (0, 0) and (3, 4), seen from agent 0 with radius 6: one
    neighbour, fewer than the two agents of the population. *)
Lemma find_neighbors_lengths_witness :
  find_neighbors 0 [Fin 0; Fin 3] [Fin 0; Fin 4] [Fin 0; Fin 0] (Fin 6) =
    Ok ([Fin 3], [Fin 4], [Fin 0])
  /\ (length [Fin 3] < Nat.min (Nat.min 2 2) 2)%nat.
Proof.
  assert (Hres : find_neighbors 0 [Fin 0; Fin 3] [Fin 0; Fin 4]
                   [Fin 0; Fin 0] (Fin 6) = Ok ([Fin 3], [Fin 4], [Fin 0])).
  { rewrite find_neighbors_ok by (simpl; lia). rewrite find_neighbors_loop.
    assert (Hsel : selected 0 (Fin 0) (Fin 0) (Fin 6)
                     (zip3 [Fin 0; Fin 3] [Fin 0; Fin 4] [Fin 0; Fin 0]) = [1%nat]).
    { unfold selected.
      cbn [zip3 combine length seq filter Nat.eqb negb andb nth fst snd].
      rewrite within_Fin.
      replace ((3 - 0) ^ 2 + (4 - 0) ^ 2) with (5 * 5) by ring.
      rewrite sqrt_square by lra.
      destruct (Rlt_dec 5 6) as [_|Hn]; [reflexivity | lra]. }
    cbn [nth] in *. rewrite Hsel. reflexivity. }
  split; [exact Hres|].
  destruct (find_neighbors_lengths 0 [Fin 0; Fin 3] [Fin 0; Fin 4]
              [Fin 0; Fin 0] (Fin 6) [Fin 3] [Fin 4] [Fin 0] Hres)
    as [_ [_ [_ Hlt]]].
  apply Hlt. simpl. lia.
Defined.

Lemma filter_none {A : Type} (p : A -> bool) (l : list A) :
  (forall a, In a l -> p a = false) -> filter p l = [].
Proof.
  induction l as [|a l IH]; intros Hp; simpl; [reflexivity|].
  rewrite (Hp a (or_introl eq_refl)). apply IH. intros b Hb. apply Hp. now right.
Qed.

Lemma nadd_NaN_r (a : num) : nadd a NaN = NaN.
Proof. destruct a; reflexivity. Qed.

Lemma nsqrt_cases (t : num) :
  nsqrt t = NaN \/ nsqrt t = Inf false \/ exists s, nsqrt t = Fin s /\ 0 <= s.
Proof.
  destruct t as [s|[|]|]; simpl; auto.
  destruct (Rlt_dec s 0); auto.
  right. right. exists (sqrt s). split; [reflexivity | apply sqrt_pos].
Qed.

Lemma within_no_reach (x0 y0 d x y : num) :
  no_reach d -> within x0 y0 d x y = false.
Proof.
  intros Hd. unfold within.
  destruct (nsqrt_cases (nadd (nmul (nsub x x0) (nsub x x0))
                              (nmul (nsub y y0) (nsub y y0))))
    as [-> | [-> | [s [-> Hs]]]].
  - reflexivity.
  - destruct d as [r|[|]|]; reflexivity.
  - destruct Hd as [-> | [-> | [r [-> Hr]]]]; try reflexivity.
    simpl. destruct (Rlt_dec s r); [lra | reflexivity].
Qed.

Lemma within_NaN_center (x0 y0 d x y : num) :
  x0 = NaN \/ y0 = NaN -> within x0 y0 d x y = false.
Proof.
  intros [-> | ->]; unfold within, nsub; cbn [nneg]; rewrite nadd_NaN_r;
    cbn [nmul nadd]; rewrite ?nadd_NaN_r; reflexivity.
Qed.

Lemma within_NaN_point (x0 y0 d x y : num) :
  x = NaN \/ y = NaN -> within x0 y0 d x y = false.
Proof.
  intros [-> | ->]; unfold within, nsub; cbn [nadd nmul];
    rewrite ?nadd_NaN_r; reflexivity.
Qed.

Lemma find_neighbors_none (idx : nat) (xs ys os : list num) (d : num) :
  (idx < length xs)%nat -> (idx < length ys)%nat ->
  (forall x y, within (nth idx xs NaN) (nth idx ys NaN) d x y = false) ->
  find_neighbors idx xs ys os d = Ok ([], [], []).
Proof.
  intros Hx Hy Hw. rewrite find_neighbors_ok by assumption.
  rewrite find_neighbors_loop.
  assert (Hsel : selected idx (nth idx xs NaN) (nth idx ys NaN) d
                   (zip3 xs ys os) = []).
  { unfold selected. apply filter_none. intros j _.
    rewrite Hw. apply andb_false_r. }
  rewrite Hsel. reflexivity.
Qed.

(** X3: with a radius that is zero, negative, minus infinity or NaN,
    [find_neighbors] returns three empty arrays for every valid index,
    whatever the positions. *)
Theorem find_neighbors_no_reach (idx : nat) (xs ys os : list num) (d : num) :
  (idx < length xs)%nat -> (idx < length ys)%nat -> no_reach d ->
  find_neighbors idx xs ys os d = Ok ([], [], []).
Proof.
  intros Hx Hy Hd. apply find_neighbors_none; try assumption.
  intros x y. apply within_no_reach. exact Hd.
Qed.

(** Two agents at the same place, radius 0: distance 0 is not below 0. *)
Lemma find_neighbors_no_reach_witness :
  find_neighbors 0 [Fin 1; Fin 1] [Fin 2; Fin 2] [Fin 0; Fin 0] (Fin 0) =
  Ok ([], [], []).
Proof.
  apply (find_neighbors_no_reach 0 [Fin 1; Fin 1] [Fin 2; Fin 2]
           [Fin 0; Fin 0] (Fin 0)); [simpl; lia | simpl; lia |].
  right. right. exists 0. split; [reflexivity | lra].
Defined.

(** X4: an agent whose x or y coordinate is NaN has no neighbour, and is
    no other agent's neighbour. *)
Theorem nan_agent_is_isolated (xs ys os : list num) (d : num) (i j : nat) :
  length ys = length xs -> length os = length xs ->
  (i < length xs)%nat -> (j < length xs)%nat ->
  nth j xs NaN = NaN \/ nth j ys NaN = NaN ->
  find_neighbors j xs ys os d = Ok ([], [], [])
  /\ find_neighbors i xs ys os d =
       Ok (map (fun k => nth k xs NaN) (near_indices i xs ys d),
           map (fun k => nth k ys NaN) (near_indices i xs ys d),
           map (fun k => nth k os NaN) (near_indices i xs ys d))
  /\ ~ In j (near_indices i xs ys d).
Proof.
  intros Hy Ho Hi Hj Hnan. split; [|split].
  - apply find_neighbors_none; try lia.
    intros x y. apply within_NaN_center. exact Hnan.
  - apply find_neighbors_near; assumption.
  - unfold near_indices. rewrite filter_In. intros [_ Hk].
    rewrite within_NaN_point in Hk by exact Hnan.
    rewrite andb_false_r in Hk. discriminate Hk.
Qed.

Lemma nan_agent_is_isolated_witness :
  find_neighbors 1 [Fin 0; NaN] [Fin 0; NaN] [Fin 0; NaN] (Fin 100) =
    Ok ([], [], [])
  /\ ~ In 1%nat (near_indices 0 [Fin 0; NaN] [Fin 0; NaN] (Fin 100)).
Proof.
  destruct (nan_agent_is_isolated [Fin 0; NaN] [Fin 0; NaN] [Fin 0; NaN]
              (Fin 100) 0 1) as [H1 [_ H2]];
    try reflexivity; [simpl; lia | simpl; lia | left; reflexivity |].
  split; assumption.
Defined.

Lemma find_neighbors_Fin (rxs rys : list R) (os : list num) (idx : nat) (r : R) :
  length rys = length rxs -> length os = length rxs -> (idx < length rxs)%nat ->
  find_neighbors idx (map Fin rxs) (map Fin rys) os (Fin r) =
  Ok (map (fun j => Fin (nth j rxs 0)) (neighbor_indices rxs rys idx r),
      map (fun j => Fin (nth j rys 0)) (neighbor_indices rxs rys idx r),
      map (fun j => nth j os NaN) (neighbor_indices rxs rys idx r)).
Proof.
  intros Hy Ho Hidx.
  rewrite find_neighbors_near by (rewrite !length_map; assumption).
  rewrite near_indices_Fin by assumption.
  rewrite (map_ext_in (fun j => nth j (map Fin rxs) NaN)
                      (fun j => Fin (nth j rxs 0)))
    by (intros j Hj; apply nth_map_Fin; eapply neighbor_indices_bound; exact Hj).
  rewrite (map_ext_in (fun j => nth j (map Fin rys) NaN)
                      (fun j => Fin (nth j rys 0)))
    by (intros j Hj; apply nth_map_Fin; rewrite Hy;
        eapply neighbor_indices_bound; exact Hj).
  reflexivity.
Qed.

Lemma neighbor_indices_In (rxs rys : list R) (idx : nat) (r : R) (j : nat) :
  In j (neighbor_indices rxs rys idx r) <->
  (j < length rxs)%nat /\ j <> idx /\ euclid rxs rys idx j < r.
Proof.
  unfold neighbor_indices, is_neighbor. rewrite filter_In, in_seq.
  rewrite andb_true_iff, negb_true_iff, Nat.eqb_neq.
  destruct (Rlt_dec (euclid rxs rys idx j) r) as [Hlt|Hge].
  - split; intros [Hj [Hne _]]; (split; [lia | split; [exact Hne | trivial]]).
  - split; intros [_ [_ Habs]]; [discriminate | contradiction].
Qed.

Lemma euclid_sym (rxs rys : list R) (i j : nat) :
  euclid rxs rys i j = euclid rxs rys j i.
Proof. unfold euclid. f_equal. ring. Qed.

(** X5: being a neighbour is symmetric: on a population with real
    coordinates and one radius, agent [j] is among the neighbours returned
    for [i] exactly when [i] is among those returned for [j]. *)
Theorem neighbors_symmetric (rxs rys : list R) (os : list num) (r : R) (i j : nat) :
  length rys = length rxs -> length os = length rxs ->
  (i < length rxs)%nat -> (j < length rxs)%nat ->
  find_neighbors i (map Fin rxs) (map Fin rys) os (Fin r) =
    Ok (map (fun k => Fin (nth k rxs 0)) (neighbor_indices rxs rys i r),
        map (fun k => Fin (nth k rys 0)) (neighbor_indices rxs rys i r),
        map (fun k => nth k os NaN) (neighbor_indices rxs rys i r))
  /\ find_neighbors j (map Fin rxs) (map Fin rys) os (Fin r) =
    Ok (map (fun k => Fin (nth k rxs 0)) (neighbor_indices rxs rys j r),
        map (fun k => Fin (nth k rys 0)) (neighbor_indices rxs rys j r),
        map (fun k => nth k os NaN) (neighbor_indices rxs rys j r))
  /\ (In j (neighbor_indices rxs rys i r) <-> In i (neighbor_indices rxs rys j r)).
Proof.
  intros Hy Ho Hi Hj.
  split; [apply find_neighbors_Fin; assumption|].
  split; [apply find_neighbors_Fin; assumption|].
  rewrite !neighbor_indices_In, (euclid_sym rxs rys i j).
  split; intros [_ [Hne Hd]]; (split; [assumption | split; [congruence | exact Hd]]).
Qed.

Lemma neighbors_symmetric_witness :
  In 1%nat (neighbor_indices [1; 0] [0; 0] 0 100) <->
  In 0%nat (neighbor_indices [1; 0] [0; 0] 1 100).
Proof.
  destruct (neighbors_symmetric [1; 0] [0; 0] [Fin 0; Fin 0] 100 0 1)
    as [_ [_ H]]; try reflexivity; [simpl; lia | simpl; lia |].
  exact H.
Defined.

(** X6: enlarging the radius never loses a neighbour: every agent
    returned for radius [r] is returned for any radius [r' >= r]. *)
Theorem neighbors_monotone (rxs rys : list R) (os : list num) (r r' : R) (i : nat) :
  length rys = length rxs -> length os = length rxs -> (i < length rxs)%nat ->
  r <= r' ->
  find_neighbors i (map Fin rxs) (map Fin rys) os (Fin r) =
    Ok (map (fun k => Fin (nth k rxs 0)) (neighbor_indices rxs rys i r),
        map (fun k => Fin (nth k rys 0)) (neighbor_indices rxs rys i r),
        map (fun k => nth k os NaN) (neighbor_indices rxs rys i r))
  /\ find_neighbors i (map Fin rxs) (map Fin rys) os (Fin r') =
    Ok (map (fun k => Fin (nth k rxs 0)) (neighbor_indices rxs rys i r'),
        map (fun k => Fin (nth k rys 0)) (neighbor_indices rxs rys i r'),
        map (fun k => nth k os NaN) (neighbor_indices rxs rys i r'))
  /\ incl (neighbor_indices rxs rys i r) (neighbor_indices rxs rys i r').
Proof.
  intros Hy Ho Hi Hr.
  split; [apply find_neighbors_Fin; assumption|].
  split; [apply find_neighbors_Fin; assumption|].
  intros j. rewrite !neighbor_indices_In.
  intros [Hj [Hne Hd]]. split; [assumption | split; [assumption | lra]].
Qed.

Lemma neighbors_monotone_witness :
  incl (neighbor_indices [1; 0] [0; 0] 0 100) (neighbor_indices [1; 0] [0; 0] 0 200).
Proof.
  destruct (neighbors_monotone [1; 0] [0; 0] [Fin 0; Fin 0] 100 200 0)
    as [_ [_ H]]; try reflexivity; [simpl; lia | lra |].
  exact H.
Defined.

(** * [update_locations] on sequences of different lengths *)

Section Lengths.

Variables xs ys os : list num.
Variable canvas_size : num * num.
Variables speed interaction_radius w0 w1 w2 : num.

Local Abbreviation update :=
  (agent_update xs ys os canvas_size speed interaction_radius w0 w1 w2).
Local Abbreviation body :=
  (update_body xs ys os canvas_size speed interaction_radius w0 w1 w2).

Lemma agent_update_long (i : nat) :
  (i < length xs)%nat -> (i < length ys)%nat -> (i < length os)%nat ->
  exists t, update i = Ok t.
Proof.
  intros Hx Hy Ho. unfold agent_update, agent_displacement, agent_vector.
  rewrite (getitem_nth os i NaN) by assumption. cbn [bind].
  rewrite find_neighbors_ok by assumption. cbn [bind].
  rewrite (getitem_nth xs i NaN) by assumption.
  rewrite (getitem_nth ys i NaN) by assumption.
  destruct (fold_left _ _ _) as [[nxs nys] nos].
  destruct (negb _); cbn [bind]; eauto.
Qed.

Lemma agent_update_short (i : nat) :
  (i < length xs)%nat -> (length ys <= i \/ length os <= i)%nat ->
  update i = Raise IndexError.
Proof.
  intros Hx Hshort. unfold agent_update, agent_displacement, agent_vector.
  destruct (Nat.lt_ge_cases i (length os)) as [Ho|Ho].
  - assert (Hy : (length ys <= i)%nat) by lia.
    rewrite (getitem_nth os i NaN) by assumption. cbn [bind].
    unfold find_neighbors. rewrite (getitem_nth xs i NaN) by assumption.
    cbn [bind]. rewrite getitem_out by assumption. reflexivity.
  - rewrite getitem_out by assumption. reflexivity.
Qed.

Lemma update_loop_ok (l : list nat) (acc : lists3) :
  (forall i, In i l -> exists t, update i = Ok t) ->
  exists ax ay ao,
    for_each body l acc =
      Ok (fst (fst acc) ++ ax, snd (fst acc) ++ ay, snd acc ++ ao)
    /\ length ax = length l /\ length ay = length l /\ length ao = length l.
Proof.
  revert acc. induction l as [|i l IH]; intros [[cx cy] co] Hl.
  - exists [], [], []. simpl. rewrite !app_nil_r. auto.
  - destruct (Hl i (or_introl eq_refl)) as [[[x y] a] Hu].
    destruct (IH (cx ++ [x], cy ++ [y], co ++ [a])) as [ax [ay [ao [Hr Hlen]]]].
    { intros j Hj. apply Hl. now right. }
    exists (x :: ax), (y :: ay), (a :: ao).
    cbn [for_each]. unfold update_body at 1. rewrite Hu. cbn [bind].
    rewrite Hr. cbn [fst snd length]. rewrite <- !app_assoc.
    split; [reflexivity | lia].
Qed.

Lemma update_loop_raise (l : list nat) (acc : lists3) :
  (forall i, In i l -> (exists t, update i = Ok t) \/ update i = Raise IndexError) ->
  (exists i, In i l /\ update i = Raise IndexError) ->
  for_each body l acc = Raise IndexError.
Proof.
  revert acc. induction l as [|i l IH]; intros [[cx cy] co] Hall [k [Hk Hr]].
  - contradiction.
  - cbn [for_each]. unfold update_body at 1.
    destruct (Hall i (or_introl eq_refl)) as [[[[x y] a] Hu] | Hu].
    + rewrite Hu. cbn [bind]. apply IH.
      * intros j Hj. apply Hall. now right.
      * destruct Hk as [->|Hk]; [congruence | eauto].
    + rewrite Hu. reflexivity.
Qed.

End Lengths.

(** X7: with three weights, [update_locations] raises [IndexError]
    exactly when [ys] or [os] is shorter than [xs]; otherwise it returns
    three sequences of the length of [xs]. *)
Theorem update_locations_raises_iff (xs ys os : list num)
    (canvas_size : num * num) (speed interaction_radius w0 w1 w2 : num) :
  (update_locations xs ys os canvas_size speed interaction_radius [w0; w1; w2] =
     Raise IndexError <->
   (length ys < length xs \/ length os < length xs)%nat)
  /\ ((length xs <= length ys)%nat -> (length xs <= length os)%nat ->
      exists new_xs new_ys new_os,
        update_locations xs ys os canvas_size speed interaction_radius
          [w0; w1; w2] = Ok (new_xs, new_ys, new_os)
        /\ length new_xs = length xs /\ length new_ys = length xs
        /\ length new_os = length xs).
Proof.
  assert (Hok : (length xs <= length ys)%nat -> (length xs <= length os)%nat ->
      exists new_xs new_ys new_os,
        update_locations xs ys os canvas_size speed interaction_radius
          [w0; w1; w2] = Ok (new_xs, new_ys, new_os)
        /\ length new_xs = length xs /\ length new_ys = length xs
        /\ length new_os = length xs).
  { intros Hy Ho. unfold update_locations.
    destruct (update_loop_ok xs ys os canvas_size speed interaction_radius
                w0 w1 w2 (seq 0 (length xs)) ([], [], []))
      as [ax [ay [ao [Hr Hlen]]]].
    { intros i Hi. apply in_seq in Hi. apply agent_update_long; lia. }
    exists ax, ay, ao. rewrite length_seq in Hlen. split; [exact Hr | exact Hlen]. }
  split; [|exact Hok]. split.
  - intros Hr.
    destruct (Nat.lt_ge_cases (length ys) (length xs)) as [Hy|Hy]; [left; exact Hy|].
    destruct (Nat.lt_ge_cases (length os) (length xs)) as [Ho|Ho]; [right; exact Ho|].
    destruct (Hok Hy Ho) as [ax [ay [ao [Hr' _]]]]. congruence.
  - intros Hshort. unfold update_locations. apply update_loop_raise.
    + intros i Hi. apply in_seq in Hi.
      destruct (Nat.lt_ge_cases i (length ys)) as [Hy|Hy];
        [destruct (Nat.lt_ge_cases i (length os)) as [Ho|Ho]|].
      * left. apply agent_update_long; lia.
      * right. apply agent_update_short; lia.
      * right. apply agent_update_short; lia.
    + exists (Nat.min (length ys) (length os)). split.
      * apply in_seq. lia.
      * apply agent_update_short; lia.
Qed.

Lemma getitem_firstn {A : Type} (l : list A) (n i : nat) :
  (i < n)%nat -> getitem (firstn n l) i = getitem l i.
Proof.
  intros Hi. unfold getitem. rewrite nth_error_firstn.
  apply Nat.ltb_lt in Hi. rewrite Hi. reflexivity.
Qed.

Lemma zip3_firstn (xs ys os : list num) :
  (length xs <= length ys)%nat ->
  zip3 xs (firstn (length xs) ys) (firstn (length xs) os) = zip3 xs ys os.
Proof.
  intros Hy. unfold zip3.
  rewrite <- (combine_firstn_l xs ys).
  rewrite (combine_firstn_l (combine xs ys) os).
  rewrite length_combine, Nat.min_l by assumption. reflexivity.
Qed.

Lemma for_each_ext {S : Type} (f g : nat -> S -> result S) (l : list nat) (s : S) :
  (forall i s', In i l -> f i s' = g i s') -> for_each f l s = for_each g l s.
Proof.
  revert s. induction l as [|i l IH]; intros s Hfg; [reflexivity|].
  cbn [for_each]. rewrite (Hfg i s (or_introl eq_refl)).
  destruct (g i s) as [s'|e]; [|reflexivity].
  cbn [bind]. apply IH. intros j s'' Hj. apply Hfg. now right.
Qed.

Lemma agent_update_firstn (xs ys os : list num) (canvas_size : num * num)
    (speed interaction_radius w0 w1 w2 : num) (i : nat) :
  (i < length xs)%nat -> (length xs <= length ys)%nat ->
  agent_update xs (firstn (length xs) ys) (firstn (length xs) os) canvas_size
    speed interaction_radius w0 w1 w2 i =
  agent_update xs ys os canvas_size speed interaction_radius w0 w1 w2 i.
Proof.
  intros Hi Hy.
  unfold agent_update, agent_displacement, agent_vector, find_neighbors.
  rewrite !getitem_firstn by assumption.
  rewrite zip3_firstn by assumption. reflexivity.
Qed.

(** X8: entries of [ys] and [os] beyond the length of [xs] are ignored:
    the step gives the same result as on the sequences cut to that
    length. *)
Theorem update_locations_ignores_surplus (xs ys os : list num)
    (canvas_size : num * num) (speed interaction_radius : num)
    (weights : list num) :
  (length xs <= length ys)%nat ->
  update_locations xs (firstn (length xs) ys) (firstn (length xs) os)
    canvas_size speed interaction_radius weights =
  update_locations xs ys os canvas_size speed interaction_radius weights.
Proof.
  intros Hy. unfold update_locations.
  destruct weights as [|w0 [|w1 [|w2 [|w3 ws]]]]; try reflexivity.
  apply for_each_ext. intros i [[ax ay] ao] Hi. apply in_seq in Hi.
  unfold update_body. rewrite agent_update_firstn by lia. reflexivity.
Qed.

Lemma update_locations_ignores_surplus_witness :
  update_locations [Fin 0] (firstn 1 [Fin 0; Fin 7]) (firstn 1 [Fin 0; Fin 9])
    (Fin 800, Fin 600) (Fin 5) (Fin 100) [Fin 1; Fin 1; Fin 1] =
  update_locations [Fin 0] [Fin 0; Fin 7] [Fin 0; Fin 9]
    (Fin 800, Fin 600) (Fin 5) (Fin 100) [Fin 1; Fin 1; Fin 1].
Proof.
  apply (update_locations_ignores_surplus [Fin 0] [Fin 0; Fin 7] [Fin 0; Fin 9]
           (Fin 800, Fin 600) (Fin 5) (Fin 100) [Fin 1; Fin 1; Fin 1]).
  simpl. lia.
Defined.

(** * NaN is absorbing *)

Lemma with_force_NaN (f : vec) (w : num) : with_force (NaN, NaN) f w = (NaN, NaN).
Proof. unfold with_force. destruct (nne _ _); reflexivity. Qed.

Lemma agent_update_nan_heading (xs ys os : list num) (canvas_size : num * num)
    (speed interaction_radius w0 w1 w2 : num) (i : nat) :
  (i < length xs)%nat -> (i < length ys)%nat -> (i < length os)%nat ->
  nth i os (Fin 0) = NaN ->
  agent_update xs ys os canvas_size speed interaction_radius w0 w1 w2 i =
  Ok (NaN, NaN, NaN).
Proof.
  intros Hx Hy Ho Hnan.
  assert (Hv : agent_vector xs ys os interaction_radius w0 w1 w2 i = Ok (NaN, NaN)).
  { unfold agent_vector.
    rewrite (getitem_nth os i (Fin 0)) by assumption. rewrite Hnan. cbn [bind].
    rewrite find_neighbors_ok by assumption. cbn [bind ncos nsin].
    destruct (fold_left _ _ _) as [[nxs nys] nos].
    destruct (negb _); [|reflexivity].
    rewrite (getitem_nth xs i NaN) by assumption.
    rewrite (getitem_nth ys i NaN) by assumption. cbn [bind].
    rewrite add_forces_with_force, !with_force_NaN. reflexivity. }
  unfold agent_update, agent_displacement. rewrite Hv. cbn [bind].
  rewrite (getitem_nth xs i NaN) by assumption.
  rewrite (getitem_nth ys i NaN) by assumption. reflexivity.
Qed.

Lemma update_locations_nth (xs ys os : list num) (canvas_size : num * num)
    (speed interaction_radius w0 w1 w2 : num) (i : nat) (x y a : num) :
  length ys = length xs -> length os = length xs -> (i < length xs)%nat ->
  agent_update xs ys os canvas_size speed interaction_radius w0 w1 w2 i =
    Ok (x, y, a) ->
  exists new_xs new_ys new_os,
    update_locations xs ys os canvas_size speed interaction_radius [w0; w1; w2] =
      Ok (new_xs, new_ys, new_os)
    /\ length new_xs = length xs /\ length new_ys = length xs
    /\ length new_os = length xs
    /\ nth i new_xs (Fin 0) = x /\ nth i new_ys (Fin 0) = y
    /\ nth i new_os (Fin 0) = a.
Proof.
  intros Hy Ho Hi Hu.
  eexists _, _, _. split; [apply update_locations_eq; assumption|].
  rewrite !length_map, !length_seq, !nth_map_seq by assumption.
  unfold agent_next. rewrite Hu. repeat split.
Qed.

(** X9: an agent whose heading is NaN comes out of a step with NaN
    position and NaN heading, whatever its position, its neighbours and the
    parameters. *)
Theorem nan_heading_is_absorbing (xs ys os : list num) (canvas_size : num * num)
    (speed interaction_radius w0 w1 w2 : num) (i : nat) :
  length ys = length xs -> length os = length xs -> (i < length xs)%nat ->
  nth i os (Fin 0) = NaN ->
  exists new_xs new_ys new_os,
    update_locations xs ys os canvas_size speed interaction_radius [w0; w1; w2] =
      Ok (new_xs, new_ys, new_os)
    /\ nth i new_xs (Fin 0) = NaN /\ nth i new_ys (Fin 0) = NaN
    /\ nth i new_os (Fin 0) = NaN.
Proof.
  intros Hy Ho Hi Hnan.
  destruct (update_locations_nth xs ys os canvas_size speed interaction_radius
              w0 w1 w2 i NaN NaN NaN Hy Ho Hi)
    as [nx [ny [no [Hr [_ [_ [_ Hn]]]]]]].
  { apply agent_update_nan_heading; try lia. exact Hnan. }
  exists nx, ny, no. split; [exact Hr | exact Hn].
Qed.

Lemma nan_heading_is_absorbing_witness :
  exists new_xs new_ys new_os,
    update_locations [Fin 3; Fin 4] [Fin 1; Fin 2] [Fin 0; NaN] (Fin 800, Fin 600)
      (Fin 5) (Fin 100) [Fin 1; Fin 1; Fin 1] = Ok (new_xs, new_ys, new_os)
    /\ nth 1 new_xs (Fin 0) = NaN /\ nth 1 new_ys (Fin 0) = NaN
    /\ nth 1 new_os (Fin 0) = NaN.
Proof.
  apply (nan_heading_is_absorbing [Fin 3; Fin 4] [Fin 1; Fin 2] [Fin 0; NaN]
           (Fin 800, Fin 600) (Fin 5) (Fin 100) (Fin 1) (Fin 1) (Fin 1) 1);
    try reflexivity. simpl. lia.
Defined.

(** * The driver loop *)

Lemma frames_invariant (P : lists3 -> Prop) :
  (forall s, P s -> exists s', Demo.frame s = Ok s' /\ P s') ->
  forall n s, P s -> exists s', Demo.frames n s = Ok s' /\ P s'.
Proof.
  intros Hstep. induction n as [|n IH]; intros s Hs.
  - exists s. split; [reflexivity | exact Hs].
  - destruct (Hstep s Hs) as [s1 [H1 P1]].
    destruct (IH s1 P1) as [s2 [H2 P2]].
    exists s2. cbn [Demo.frames]. rewrite H1. cbn [bind]. auto.
Qed.

(** X10: started on three sequences of one length [N], the driver loop
    never raises, and after any number of frames the state still consists
    of three sequences of length [N]. *)
Theorem frames_keep_population (xs ys os : list num) (n : nat) :
  length ys = length xs -> length os = length xs ->
  exists xs' ys' os',
    Demo.frames n (xs, ys, os) = Ok (xs', ys', os')
    /\ length xs' = length xs /\ length ys' = length xs
    /\ length os' = length xs.
Proof.
  intros Hy Ho.
  destruct (frames_invariant
              (fun s => let '(a, b, c) := s in
                        length a = length xs /\ length b = length xs
                        /\ length c = length xs)) with (n := n) (s := (xs, ys, os))
    as [[[xs' ys'] os'] [Hr Hlen]].
  - intros [[a b] c] [Ha [Hb Hc]]. unfold Demo.frame, Demo.weights.
    rewrite update_locations_eq by congruence.
    eexists. split; [reflexivity|].
    cbn beta iota. rewrite !length_map, !length_seq. auto.
  - auto.
  - exists xs', ys', os'. split; [exact Hr | exact Hlen].
Qed.

Lemma frames_keep_population_witness :
  exists xs' ys' os',
    Demo.frames 3 ([Fin 1; Fin 0], [Fin 0; Fin 0], [Fin 0; Fin 0]) =
      Ok (xs', ys', os')
    /\ length xs' = 2%nat /\ length ys' = 2%nat /\ length os' = 2%nat.
Proof.
  apply (frames_keep_population [Fin 1; Fin 0] [Fin 0; Fin 0] [Fin 0; Fin 0] 3);
    reflexivity.
Defined.

(** X11: once an agent's heading is NaN, its position and heading are NaN
    after every later frame of the driver loop. *)
Theorem nan_agent_stays_nan (xs ys os : list num) (i n : nat) :
  length ys = length xs -> length os = length xs -> (i < length xs)%nat ->
  nth i os (Fin 0) = NaN ->
  exists xs' ys' os',
    Demo.frames (S n) (xs, ys, os) = Ok (xs', ys', os')
    /\ nth i xs' (Fin 0) = NaN /\ nth i ys' (Fin 0) = NaN
    /\ nth i os' (Fin 0) = NaN.
Proof.
  intros Hy Ho Hi Hnan.
  set (P := fun s : lists3 =>
              let '(a, b, c) := s in
              length a = length xs /\ length b = length xs
              /\ length c = length xs /\ nth i c (Fin 0) = NaN).
  set (Q := fun s : lists3 =>
              let '(a, b, c) := s in
              P s /\ nth i a (Fin 0) = NaN /\ nth i b (Fin 0) = NaN).
  assert (Hstep : forall s, P s -> exists s', Demo.frame s = Ok s' /\ Q s').
  { intros [[a b] c] [Ha [Hb [Hc Hn]]]. unfold Demo.frame, Demo.weights.
    destruct (update_locations_nth a b c Demo.size Demo.speed
                Demo.interaction_radius (Fin 1) (Fin (1 / 10)) (Fin (1 / 10))
                i NaN NaN NaN)
      as [nx [ny [no [Hr [Hlx [Hly [Hlo [Hx' [Hy' Ho']]]]]]]]];
      try congruence; try lia.
    { apply agent_update_nan_heading; try lia. exact Hn. }
    exists (nx, ny, no). split; [exact Hr|].
    unfold Q, P. repeat split; congruence. }
  destruct (Hstep (xs, ys, os)) as [s1 [H1 Q1]].
  { unfold P. auto. }
  destruct (frames_invariant Q) with (n := n) (s := s1)
    as [[[xs' ys'] os'] [Hr [[_ [_ [_ Hc]]] [Ha Hb]]]].
  - intros [[a b] c] [HP _]. apply Hstep. exact HP.
  - exact Q1.
  - exists xs', ys', os'. cbn [Demo.frames]. rewrite H1. cbn [bind].
    split; [exact Hr | auto].
Qed.

Lemma nan_agent_stays_nan_witness :
  exists xs' ys' os',
    Demo.frames 4 ([Fin 3; Fin 4], [Fin 1; Fin 2], [Fin 0; NaN]) =
      Ok (xs', ys', os')
    /\ nth 1 xs' (Fin 0) = NaN /\ nth 1 ys' (Fin 0) = NaN
    /\ nth 1 os' (Fin 0) = NaN.
Proof.
  apply (nan_agent_stays_nan [Fin 3; Fin 4] [Fin 1; Fin 2] [Fin 0; NaN] 1 3);
    try reflexivity. simpl. lia.
Defined.

(** * Speed, weights and radius *)










(** X13: with the weights (0, 0, 0) every agent of a finite population
    moves by [speed] along its current heading, neighbours or not. *)
Theorem zero_weights_straight_motion (rxs rys ros : list R) (s r : R) (i : nat) :
  length rys = length rxs -> length ros = length rxs -> (i < length rxs)%nat ->
  agent_displacement (map Fin rxs) (map Fin rys) (map Fin ros) (Fin s) (Fin r)
    (Fin 0) (Fin 0) (Fin 0) i =
  Ok (Fin (s * cos (nth i ros 0)), Fin (s * sin (nth i ros 0))).
Proof.
  intros Hy Ho Hi.
  assert (Hv : agent_vector (map Fin rxs) (map Fin rys) (map Fin ros) (Fin r)
                 (Fin 0) (Fin 0) (Fin 0) i =
               Ok (Fin (cos (nth i ros 0)), Fin (sin (nth i ros 0)))).
  { destruct (neighbor_indices rxs rys i r) as [|j0 js'] eqn:Ejs.
    - rewrite zero_neighbor_vector; rewrite ?length_map; try assumption.
      + rewrite nth_map_Fin by lia. reflexivity.
      + rewrite near_indices_Fin by assumption. exact Ejs.
    - rewrite agent_vector_forces;
        rewrite ?length_map; try assumption; [|rewrite Ejs; discriminate].
      rewrite nth_map_Fin by lia. cbn [ncos nsin].
      destruct (alignment_force_finite ros (neighbor_indices rxs rys i r))
        as [f [g Hal]].
      { rewrite Ejs. discriminate. }
      { intros j Hj. rewrite Ho. eapply neighbor_indices_bound. exact Hj. }
      rewrite Hal. unfold cohesion_force, separation_force.
      rewrite !with_force_weight_zero. reflexivity. }
  unfold agent_displacement. rewrite Hv. cbn [bind].
  rewrite displacement_unit. reflexivity.
Qed.

Lemma zero_weights_straight_motion_witness :
  agent_displacement (map Fin [1; 0]) (map Fin [0; 0]) (map Fin [0; 0]) (Fin 5)
    (Fin 100) (Fin 0) (Fin 0) (Fin 0) 0 =
  Ok (Fin (5 * cos 0), Fin (5 * sin 0)).
Proof.
  apply (zero_weights_straight_motion [1; 0] [0; 0] [0; 0] 5 100 0);
    try reflexivity. simpl. lia.
Defined.

Lemma near_indices_no_reach (i : nat) (xs ys : list num) (d : num) :
  no_reach d -> near_indices i xs ys d = [].
Proof.
  intros Hd. unfold near_indices. apply filter_none. intros j _.
  rewrite within_no_reach by exact Hd. apply andb_false_r.
Qed.

(** X14: with an interaction radius that is zero, negative or NaN, no
    force acts: every agent with a finite heading [o] moves by
    [speed * (cos o, sin o)], its position wrapped on the canvas, whatever
    the weights. *)
Theorem no_reach_straight_motion (xs ys os : list num) (canvas_size : num * num)
    (d w0 w1 w2 : num) (s o : R) (i : nat) :
  length ys = length xs -> length os = length xs -> (i < length xs)%nat ->
  no_reach d -> nth i os NaN = Fin o ->
  exists new_xs new_ys new_os,
    update_locations xs ys os canvas_size (Fin s) d [w0; w1; w2] =
      Ok (new_xs, new_ys, new_os)
    /\ nth i new_xs (Fin 0) =
         nmod (nadd (Fin (s * cos o)) (nth i xs NaN)) (fst canvas_size)
    /\ nth i new_ys (Fin 0) =
         nmod (nadd (Fin (s * sin o)) (nth i ys NaN)) (snd canvas_size)
    /\ nth i new_os (Fin 0) = new_angle (Fin (s * cos o), Fin (s * sin o)).
Proof.
  intros Hy Ho Hi Hd Hoi.
  destruct (zero_neighbor_update xs ys os canvas_size d w0 w1 w2 i o s Hy Ho Hi)
    as [_ Hu]; [apply near_indices_no_reach; exact Hd | exact Hoi |].
  destruct (update_locations_nth xs ys os canvas_size (Fin s) d w0 w1 w2 i
              _ _ _ Hy Ho Hi Hu) as [nx [ny [no [Hr [_ [_ [_ Hn]]]]]]].
  exists nx, ny, no. split; [exact Hr | exact Hn].
Qed.

Lemma no_reach_straight_motion_witness :
  exists new_xs new_ys new_os,
    update_locations [Fin 1; Fin 0] [Fin 0; Fin 0] [Fin 0; Fin 0]
      (Fin 800, Fin 600) (Fin 5) (Fin 0) [Fin 1; Fin 1; Fin 1] =
      Ok (new_xs, new_ys, new_os)
    /\ nth 0 new_xs (Fin 0) = nmod (nadd (Fin (5 * cos 0)) (Fin 1)) (Fin 800)
    /\ nth 0 new_ys (Fin 0) = nmod (nadd (Fin (5 * sin 0)) (Fin 0)) (Fin 600)
    /\ nth 0 new_os (Fin 0) = new_angle (Fin (5 * cos 0), Fin (5 * sin 0)).
Proof.
  apply (no_reach_straight_motion [Fin 1; Fin 0] [Fin 0; Fin 0] [Fin 0; Fin 0]
           (Fin 800, Fin 600) (Fin 0) (Fin 1) (Fin 1) (Fin 1) 5 0 0);
    try reflexivity.
  - simpl. lia.
  - right. right. exists 0. split; [reflexivity | lra].
Defined.




Lemma nmod_Fin (x W : R) :
  W <> 0 -> nmod (Fin x) (Fin W) = Fin (x - W * IZR (Int_part (x / W))).
Proof.
  intros HW. simpl. destruct (Req_dec_T W 0); [contradiction | reflexivity].
Qed.

(** * Geometry of [get_triangle_points] *)

Lemma triangle_points_Fin (x y o n w a : R) :
  get_triangle_points (Fin x) (Fin y) (Fin o) (Fin n) (Fin w) (Fin a) =
  let bx := cos o * n + x in
  let by_ := sin o * n + y in
  let lx := cos (o - a) * w + x in
  let ly := sin (o - a) * w + y in
  let rx := cos (o + a) * w + x in
  let ry := sin (o + a) * w + y in
  let cx := (bx + lx + rx) / 3 - x in
  let cy := (by_ + ly + ry) / 3 - y in
  ((Fin (bx - cx), Fin (by_ - cy)),
   (Fin (lx - cx), Fin (ly - cy)),
   (Fin (rx - cx), Fin (ry - cy))).
Proof.
  assert (H3 : 3 <> 0) by lra.
  unfold get_triangle_points, vsub, nsub.
  cbn [fst snd ncos nsin nneg nadd nmul].
  rewrite !(ndiv_Fin _ 3 H3). cbn [fst snd nneg nadd]. reflexivity.
Qed.

Lemma cos_turns (x : R) (k : nat) : cos (x + 2 * INR k * PI) = cos x.
Proof. apply cos_period. Qed.

Lemma sin_turns (x : R) (k : nat) : sin (x + 2 * INR k * PI) = sin x.
Proof. apply sin_period. Qed.

(** X17: turning the orientation by any whole number of turns gives the
    same three points. *)
Theorem get_triangle_points_periodic (x y o n w a : R) (k : nat) :
  get_triangle_points (Fin x) (Fin y) (Fin (o + 2 * INR k * PI))
    (Fin n) (Fin w) (Fin a) =
  get_triangle_points (Fin x) (Fin y) (Fin o) (Fin n) (Fin w) (Fin a).
Proof.
  rewrite !triangle_points_Fin. cbn zeta.
  replace (o + 2 * INR k * PI - a) with (o - a + 2 * INR k * PI) by ring.
  replace (o + 2 * INR k * PI + a) with (o + a + 2 * INR k * PI) by ring.
  rewrite !cos_turns, !sin_turns. reflexivity.
Qed.

(** X18: the first returned point (the nose) lies on the line through the
    center in the direction of the orientation, at signed distance
    2/3 * (nose_length - wing_length * cos wing_angle) from the center. *)
Theorem beak_points_along_orientation (x y o n w a : R) :
  fst (fst (get_triangle_points (Fin x) (Fin y) (Fin o) (Fin n) (Fin w) (Fin a))) =
  (Fin (x + 2 / 3 * (n - w * cos a) * cos o),
   Fin (y + 2 / 3 * (n - w * cos a) * sin o)).
Proof.
  rewrite triangle_points_Fin. cbn zeta. cbn [fst snd].
  rewrite cos_minus, cos_plus, sin_minus, sin_plus.
  apply Fin_pair; field.
Qed.

(** X19: the triangle is rigid and isosceles: the squared distances from
    the nose to either wing point are both
    n^2 + w^2 - 2 n w cos(wing_angle), and the squared distance between the
    wing points is (2 w sin(wing_angle))^2, whatever the center and the
    orientation. *)
Theorem triangle_is_rigid (x y o n w a : R) :
  exists bx by_ lx ly rx ry,
    get_triangle_points (Fin x) (Fin y) (Fin o) (Fin n) (Fin w) (Fin a) =
      ((Fin bx, Fin by_), (Fin lx, Fin ly), (Fin rx, Fin ry))
    /\ (bx - lx) ^ 2 + (by_ - ly) ^ 2 = n ^ 2 + w ^ 2 - 2 * n * w * cos a
    /\ (bx - rx) ^ 2 + (by_ - ry) ^ 2 = n ^ 2 + w ^ 2 - 2 * n * w * cos a
    /\ (lx - rx) ^ 2 + (ly - ry) ^ 2 = (2 * w * sin a) ^ 2.
Proof.
  eexists _, _, _, _, _, _. split; [apply triangle_points_Fin|].
  rewrite cos_minus, cos_plus, sin_minus, sin_plus.
  pose proof (sin2_cos2 o) as Ho. pose proof (sin2_cos2 a) as Ha.
  unfold Rsqr in Ho, Ha.
  set (c := cos o) in *. set (s := sin o) in *.
  set (ca := cos a) in *. set (sa := sin a) in *.
  repeat split.
  - transitivity (n * n * (s * s + c * c)
                  + w * w * ((s * s + c * c) * (sa * sa + ca * ca))
                  - 2 * n * w * ca * (s * s + c * c)); [ring|].
    rewrite Ho, Ha. ring.
  - transitivity (n * n * (s * s + c * c)
                  + w * w * ((s * s + c * c) * (sa * sa + ca * ca))
                  - 2 * n * w * ca * (s * s + c * c)); [ring|].
    rewrite Ho, Ha. ring.
  - transitivity (4 * w * w * sa * sa * (s * s + c * c)); [ring|].
    rewrite Ho. ring.
Qed.

(** * Returned headings point right *)

Lemma in_unit_interval_cos_pos (h : R) : -1 <= h <= 1 -> 0 < cos h.
Proof.
  intros Hh. pose proof PI2_1. apply cos_gt_0; lra.
Qed.





Lemma lone_frame (x y o : R) :
  exists x' y' h,
    Demo.frame ([Fin x], [Fin y], [Fin o]) = Ok ([Fin x'], [Fin y'], [Fin h])
    /\ -1 <= h <= 1.
Proof.
  unfold Demo.frame, Demo.weights, Demo.size, Demo.speed, Demo.interaction_radius.
  rewrite update_locations_eq by reflexivity. cbn [length seq map].
  destruct (zero_neighbor_update [Fin x] [Fin y] [Fin o] (Fin 800, Fin 600)
              (Fin 100) (Fin 1) (Fin (1 / 10)) (Fin (1 / 10)) 0 o 5)
    as [_ Hu]; try reflexivity; [simpl; lia|].
  unfold agent_next. rewrite Hu. cbn [value_or fst snd nth nadd].
  rewrite !nmod_Fin by lra.
  destruct (new_angle_range (5 * cos o) (5 * sin o)) as [h [Hh Hb]].
  rewrite Hh. eexists _, _, h. split; [reflexivity | exact Hb].
Qed.

(** X21: in the driver loop a lone agent, whatever its initial heading,
    has after every frame a heading in [[-1, 1]], so that from the second
    frame on it always moves with a strictly positive x-displacement. *)
Theorem lone_agent_drifts_right (x y o : R) (n : nat) :
  exists x' y' h,
    Demo.frames (S n) ([Fin x], [Fin y], [Fin o]) = Ok ([Fin x'], [Fin y'], [Fin h])
    /\ -1 <= h <= 1
    /\ agent_displacement [Fin x'] [Fin y'] [Fin h] Demo.speed
         Demo.interaction_radius (Fin 1) (Fin (1 / 10)) (Fin (1 / 10)) 0 =
       Ok (Fin (5 * cos h), Fin (5 * sin h))
    /\ 0 < 5 * cos h.
Proof.
  set (P := fun s : lists3 =>
              exists x' y' h, s = ([Fin x'], [Fin y'], [Fin h]) /\ -1 <= h <= 1).
  destruct (lone_frame x y o) as [x1 [y1 [h1 [H1 Hb1]]]].
  destruct (frames_invariant P) with (n := n) (s := ([Fin x1], [Fin y1], [Fin h1]))
    as [s' [Hr [x' [y' [h [-> Hb]]]]]].
  - intros s [xa [ya [ha [-> _]]]].
    destruct (lone_frame xa ya ha) as [xb [yb [hb [Hf Hbb]]]].
    eexists. split; [exact Hf|]. exists xb, yb, hb. auto.
  - exists x1, y1, h1. auto.
  - exists x', y', h. cbn [Demo.frames]. rewrite H1. cbn [bind].
    split; [exact Hr|]. split; [exact Hb|]. split.
    + destruct (zero_neighbor_update [Fin x'] [Fin y'] [Fin h] (Fin 800, Fin 600)
                  (Fin 100) (Fin 1) (Fin (1 / 10)) (Fin (1 / 10)) 0 h 5)
        as [Hd _]; try reflexivity; [simpl; lia|].
      exact Hd.
    + pose proof (in_unit_interval_cos_pos h Hb). lra.
Qed.

(** * The drawing call of the driver *)

(** X23: with the default shape used by the driver (nose 30, wings 10),
    the nose of the drawn triangle lies ahead of the agent's position along
    its orientation, at a distance between 40/3 and 80/3 pixels. *)
Theorem default_nose_ahead (x y o : R) :
  exists rho,
    fst (fst (Demo.triangle (Fin x) (Fin y) (Fin o))) =
      (Fin (x + rho * cos o), Fin (y + rho * sin o))
    /\ 40 / 3 <= rho <= 80 / 3.
Proof.
  exists (2 / 3 * (30 - 10 * cos (1175 / 1000))). split.
  - unfold Demo.triangle. rewrite triangle_points_Fin. cbn zeta. cbn [fst snd].
    rewrite cos_minus, cos_plus, sin_minus, sin_plus.
    apply Fin_pair; field.
  - pose proof (COS_bound (1175 / 1000)) as [Hlo Hhi]. lra.
Qed.

(** Two positions but one y coordinate: the step raises [IndexError]. *)
Lemma update_locations_raises_iff_witness :
  update_locations [Fin 0; Fin 1] [Fin 0] [Fin 0; Fin 0] (Fin 800, Fin 600)
    (Fin 5) (Fin 100) [Fin 1; Fin 1; Fin 1] = Raise IndexError.
Proof.
  destruct (update_locations_raises_iff [Fin 0; Fin 1] [Fin 0] [Fin 0; Fin 0]
              (Fin 800, Fin 600) (Fin 5) (Fin 100) (Fin 1) (Fin 1) (Fin 1))
    as [[_ Hraise] _].
  apply Hraise. left. simpl. lia.
Defined.
